(** * Directory comparer (v1.py, v2.py): a shallow embedding and its properties

    The two scripts compare a local directory tree with the trees of a list
    of SFTP servers, by SHA checksums, and optionally delete the remote files
    that have no local counterpart.

    What is modelled, and how:
    - Python dicts used as snapshots are [gmap string file_record]; the dict
      objects live in a heap and are passed by reference, as in the source;
    - Python sets of relative paths are [gset string];
    - exceptions, the heap and the sequence of observable effects are
      threaded by a small monad [M];
    - the outside world (local files, SSH servers, the operator at the
      prompt) is an [env] record of answers;
    - [hashlib] is not part of the repository: a hash object is modelled by
      the bytes fed to it so far, and the digest function of each algorithm
      is a parameter. *)

From Stdlib Require Import NArith List String Ascii.
From Stdlib.Strings Require Import Byte.
From stdpp Require Import base option list gmap sets strings.
From Equations Require Import Equations.
From Equations.Prop Require Import Logic.

#[global] Set Warnings "-clear-no-such-hyp".

(** ** Checksum engine *)

Module Checksum.

(** [bytes.hex()]: two lowercase hexadecimal digits per byte. *)
Definition hex_digit (n : N) : ascii :=
  match n with
  | 0 => "0" | 1 => "1" | 2 => "2" | 3 => "3" | 4 => "4" | 5 => "5"
  | 6 => "6" | 7 => "7" | 8 => "8" | 9 => "9" | 10 => "a" | 11 => "b"
  | 12 => "c" | 13 => "d" | 14 => "e" | _ => "f"
  end%N%char.

Definition hex_of_byte (b : Byte.byte) : string :=
  let n := Byte.to_N b in
  String (hex_digit (n / 16)) (String (hex_digit (n mod 16)) EmptyString).

Fixpoint hex (bs : list Byte.byte) : string :=
  match bs with
  | [] => EmptyString
  | b :: bs' => hex_of_byte b +:+ hex bs'
  end.

Definition is_lower_hex (c : ascii) : bool :=
  bool_decide (c ∈ list_ascii_of_string "0123456789abcdef").

(** A hash object of [hashlib]: the algorithm's name and the message fed so
    far.  [update] appends, [hexdigest] applies the algorithm's digest
    function to the whole message. *)
Record hash_obj := { h_name : string; h_msg : list Byte.byte }.

Definition hashlib_new (hash_algorithm : string) : hash_obj :=
  {| h_name := hash_algorithm; h_msg := [] |}.

Definition update (h : hash_obj) (data : list Byte.byte) : hash_obj :=
  {| h_name := h_name h; h_msg := h_msg h ++ data |}.

(** A file object opened with ['rb'], local or SFTP: the bytes not yet read,
    and a schedule of short reads.  [read size] returns at most [size]
    bytes; while the schedule lasts, the next read returns at most the
    scheduled number of bytes (at least one when any is left).  An empty
    result means end of stream. *)
Record file_obj := { pending : list Byte.byte; short_reads : list positive }.

Definition read (size : N) (f : file_obj) : list Byte.byte * file_obj :=
  match short_reads f with
  | [] =>
      (take (N.to_nat size) (pending f),
       {| pending := drop (N.to_nat size) (pending f); short_reads := [] |})
  | c :: cs =>
      let k := N.to_nat (N.min size (Npos c)) in
      (take k (pending f), {| pending := drop k (pending f); short_reads := cs |})
  end.

(** Termination of the read loops: a read that returns a non-empty chunk
    leaves strictly fewer bytes pending. *)
Ltac read_consumes E :=
  match type of E with
  | read ?size ?f = (?chunk, ?f') =>
      let Hs := fresh in
      assert (pending f = chunk ++ pending f') as Hs
        by (revert E; unfold read; destruct (short_reads f);
            intros [= <- <-]; simpl; by rewrite take_drop);
      rewrite Hs, length_app; simpl; lia
  end.

(** [for chunk in iter(lambda: f.read(size), b''): hash_func.update(chunk)] *)
Equations? local_loop (size : N) (hash_func : hash_obj) (f : file_obj) : hash_obj
  by wf (length (pending f)) lt :=
  local_loop size hash_func f with inspect (read size f) := {
    | exist _ (pair nil _) _ => hash_func
    | exist _ (pair (cons b chunk) f') E => local_loop size (update hash_func (b :: chunk)) f'
  }.
Proof. read_consumes E. Qed.

(** [while True: data = f.read(size); if not data: break; hash_func.update(data)] *)
Equations? remote_loop (size : N) (hash_func : hash_obj) (f : file_obj) : hash_obj
  by wf (length (pending f)) lt :=
  remote_loop size hash_func f with inspect (read size f) := {
    | exist _ (pair data f') E with data := {
        | nil => hash_func
        | cons b rest => remote_loop size (update hash_func (b :: rest)) f'
      }
  }.
Proof. read_consumes E. Qed.

(** [hash_func.hexdigest()], for the digest function of the algorithm. *)
Definition hexdigest (digest : string → list Byte.byte → list Byte.byte)
    (h : hash_obj) : string :=
  hex (digest (h_name h) (h_msg h)).

End Checksum.

(** ** Exceptions, heap, effects *)

(** The exceptions the collaborators can raise.  [FileNotFoundError] and
    [OtherException] are subclasses of [Exception]; [KeyboardInterrupt] stands
    for the [BaseException]s that are not. *)
Inductive exn :=
| FileNotFoundError (msg : string)
| OtherException (cls msg : string)
| KeyboardInterrupt.

Definition is_Exception (e : exn) : bool :=
  match e with KeyboardInterrupt => false | _ => true end.

(** The value of a snapshot dict: [{'checksum': ..., 'full_path': ...}], the
    second key only on the remote side. *)
Record file_record := { checksum : string; full_path : option string }.

(** An [SSHClient] object: whether its transport is up and whether the SFTP
    channel opened on it is open. *)
Record session := { transport_active : bool; sftp_open : bool }.

(** The heap: dict objects and SSH client objects, by address. *)
Record store := {
  dicts : gmap nat (gmap string file_record);
  clients : gmap nat session
}.

Inductive credential :=
| Pkey (key : string)
| Password (password : option string).

Inductive color := RESET_ALL | CYAN | GREEN | RED | YELLOW.

(** The texts the scripts write, by format string. *)
Inductive message :=
| MsgComparing (server : string)
| MsgAdded (added : option (gset string))
| MsgDeleted (deleted : option (gset string))
| MsgModified (modified : option (gset string))
| MsgAddedFile (file : string)
| MsgNoAdded
| MsgDeletedFile (file : string)
| MsgNoDeleted
| MsgModifiedFile (file : string)
| MsgNoModified
| MsgUnchangedFile (file : string)
| MsgRemoved (remote_file_path : string)
| MsgNotFound (remote_file_path : string)
| MsgRemoveError (remote_file_path : string) (e : exn)
| MsgSkipped
| MsgConnError (server : string) (e : exn).

(** Observable effects, in the order they happen. *)
Inductive event :=
| EvRglob (base_path : string)
| EvOpenLocal (rel_path : string)
| EvLoadKey (key_path : string)
| EvConnect (server username : string) (cred : credential)
| EvOpenSftp (server : string)
| EvListdir (server path : string)
| EvSftpOpen (server path : string)
| EvSftpRemove (server path : string)
| EvSftpClose (server : string)
| EvSshClose (server : string)
| EvInput (count : nat) (server : string)
| EvPrint (msg : message)
| EvLog (c : color) (msg : message).

(** *** The outside world *)

(** What [Path(base_path).rglob('*')] yields: the path relative to the base,
    whether it is a regular file, and what opening and reading it gives. *)
Record local_entry := {
  le_rel_path : string;
  le_is_file : bool;
  le_open : exn + Checksum.file_obj
}.

(** A remote tree as [listdir_attr] and [open] show it. *)
#[warnings="-register-all"]
Inductive remote_entry :=
| RFile (filename : string) (contents : exn + Checksum.file_obj)
| RDir (filename : string) (listing_error : option exn) (entries : list remote_entry).

Record remote_host := {
  connect_result : string → credential → option exn;
  open_sftp_result : option exn;
  root_listing_error : option exn;
  root_entries : list remote_entry;
  remove_result : string → option exn;
  sftp_close_result : option exn;
  operator_answer : exn + string
}.

Record env := {
  hash_digest : string → list Byte.byte → list Byte.byte;
  local_tree : string → list local_entry;
  private_key_file : string → exn + string;
  host : string → remote_host
}.

(** *** The monad *)

Record result (A : Type) := Result {
  outcome : exn + A;
  final : store;
  emitted : list event
}.
Arguments Result {A} _ _ _.
Arguments outcome {A} _.
Arguments final {A} _.
Arguments emitted {A} _.

Definition M (A : Type) : Type := store → result A.

Definition ret {A} (a : A) : M A := λ σ, Result (inr a) σ [].

Definition raise {A} (e : exn) : M A := λ σ, Result (inl e) σ [].

Definition bind {A B} (m : M A) (k : A → M B) : M B := λ σ,
  let r := m σ in
  match outcome r with
  | inl e => Result (inl e) (final r) (emitted r)
  | inr a => let r' := k a (final r) in
             Result (outcome r') (final r') (emitted r ++ emitted r')
  end.

Notation "'let*' x ':=' m 'in' k" := (bind m (λ x, k))
  (at level 10, x pattern, m at level 100, k at level 200).
Notation "m ;; k" := (bind m (λ _, k))
  (at level 100, right associativity).

Definition emit (ev : event) : M unit := λ σ, Result (inr tt) σ [ev].

(** [try: body except <classes>: handler]; [handler e = None] when no
    [except] clause matches [e]. *)
Definition try_except {A} (body : M A) (handler : exn → option (M A)) : M A := λ σ,
  let r := body σ in
  match outcome r with
  | inl e =>
      match handler e with
      | Some h => let r' := h (final r) in
                  Result (outcome r') (final r') (emitted r ++ emitted r')
      | None => r
      end
  | inr _ => r
  end.

(** [try: body finally: fin]: [fin] runs on every exit of [body]; an
    exception of [fin] replaces the outcome of [body]. *)
Definition try_finally {A} (body : M A) (fin : M unit) : M A := λ σ,
  let r := body σ in
  let r' := fin (final r) in
  Result (match outcome r' with inl e => inl e | inr _ => outcome r end)
         (final r') (emitted r ++ emitted r').

(** [for x in xs: body x] *)
Definition for_each {A} (xs : list A) (body : A → M unit) : M unit :=
  (fix loop (xs : list A) : M unit :=
     match xs with
     | [] => ret tt
     | x :: xs' => body x ;; loop xs'
     end) xs.

(** An answer of the outside world: raise or go on. *)
Definition answer (o : option exn) : M unit :=
  match o with Some e => raise e | None => ret tt end.

Definition answer_val {A} (o : exn + A) : M A :=
  match o with inl e => raise e | inr a => ret a end.

(** *** Dict objects *)

(** [{}] *)
Definition dict_new : M nat := λ σ,
  let d := fresh (dom (dicts σ)) in
  Result (inr d) {| dicts := <[d := ∅]> (dicts σ); clients := clients σ |} [].

(** [d[key] = value] *)
Definition dict_setitem (d : nat) (key : string) (value : file_record) : M unit := λ σ,
  Result (inr tt)
         {| dicts := alter (insert key value) d (dicts σ); clients := clients σ |} [].

(** The current contents of the dict object [d]. *)
Definition dict_contents (d : nat) : M (gmap string file_record) := λ σ,
  Result (inr (default ∅ (dicts σ !! d))) σ [].

(** *** [print], [log_colored], [input] *)

Definition print (msg : message) : M unit := emit (EvPrint msg).

(** [log_colored(message, color=Style.RESET_ALL)] of v2 *)
Definition log_colored (msg : message) (c : color) : M unit := emit (EvLog c msg).

(** *** [pathlib], [str] *)

(** [str(relative_root / filename)], with [Path('.')] for the root. *)
Definition joinpath (relative_root filename : string) : string :=
  if decide (relative_root = ".") then filename
  else relative_root +:+ "/" +:+ filename.

(** [s.lower()], on ASCII. *)
Definition lower_ascii (c : ascii) : ascii :=
  let n := N_of_ascii c in
  if (65 <=? n)%N && (n <=? 90)%N then ascii_of_N (n + 32) else c.

Fixpoint lower (s : string) : string :=
  match s with
  | EmptyString => EmptyString
  | String c s' => String (lower_ascii c) (lower s')
  end.

(** Truth value of [key_path]: [None] and [''] are false. *)
Definition truthy (s : option string) : bool :=
  match s with
  | None => false
  | Some s => bool_decide (s ≠ "")
  end.

(** *** [paramiko] *)

Section Paramiko.
Variable world : env.

(** [paramiko.SSHClient()] *)
Definition SSHClient : M nat := λ σ,
  let c := fresh (dom (clients σ)) in
  Result (inr c)
         {| dicts := dicts σ;
            clients := <[c := {| transport_active := false; sftp_open := false |}]> (clients σ) |}
         [].

(** [paramiko.RSAKey.from_private_key_file(key_path)] *)
Definition from_private_key_file (key_path : string) : M string :=
  emit (EvLoadKey key_path) ;; answer_val (private_key_file world key_path).

Definition set_session (c : nat) (s : session) : M unit := λ σ,
  Result (inr tt) {| dicts := dicts σ; clients := <[c := s]> (clients σ) |} [].

(** [ssh.connect(server, username=..., pkey=... | password=...)] *)
Definition ssh_connect (ssh : nat) (server username : string) (cred : credential) : M unit :=
  emit (EvConnect server username cred) ;;
  answer (connect_result (host world server) username cred) ;;
  set_session ssh {| transport_active := true; sftp_open := false |}.

(** An SFTP client: the SSH client it runs on and the server it talks to. *)
Record sftp_client := { sftp_ssh : nat; sftp_server : string }.

(** [ssh.open_sftp()], on a client connected to [server] *)
Definition open_sftp (ssh : nat) (server : string) : M sftp_client :=
  emit (EvOpenSftp server) ;;
  answer (open_sftp_result (host world server)) ;;
  set_session ssh {| transport_active := true; sftp_open := true |} ;;
  ret {| sftp_ssh := ssh; sftp_server := server |}.

(** [sftp.listdir_attr(path)]; the entries are those of the tree *)
Definition listdir_attr (sftp : sftp_client) (path : string) (err : option exn) : M unit :=
  emit (EvListdir (sftp_server sftp) path) ;; answer err.

(** [sftp.open(remote_path, 'rb')] *)
Definition sftp_open_rb (sftp : sftp_client) (remote_path : string)
    (contents : exn + Checksum.file_obj) : M Checksum.file_obj :=
  emit (EvSftpOpen (sftp_server sftp) remote_path) ;; answer_val contents.

(** [sftp.remove(path)] *)
Definition sftp_remove (sftp : sftp_client) (path : string) : M unit :=
  emit (EvSftpRemove (sftp_server sftp) path) ;;
  answer (remove_result (host world (sftp_server sftp)) path).

(** [sftp.close()]: the channel is closed, the transport stays up *)
Definition sftp_close (sftp : sftp_client) : M unit :=
  emit (EvSftpClose (sftp_server sftp)) ;;
  answer (sftp_close_result (host world (sftp_server sftp))) ;;
  set_session (sftp_ssh sftp) {| transport_active := true; sftp_open := false |}.

(** [ssh.close()]: closes the transport and with it every channel on it *)
Definition ssh_close (ssh : nat) (server : string) : M unit :=
  emit (EvSshClose server) ;;
  set_session ssh {| transport_active := false; sftp_open := false |}.

(** [input(prompt)] with the count and the server in the prompt *)
Definition input (count : nat) (server : string) : M string :=
  emit (EvInput count server) ;; answer_val (operator_answer (host world server)).
End Paramiko.

(** The arguments of [compare_directories]. *)
Record arguments := {
  source_path : string;
  servers : list string;
  remote_path : string;
  username : string;
  key_path : option string;
  password : option string;
  auto_delete : bool
}.

(** ** v1.py *)

Module V1.
Section Script.
Variable world : env.

(** The digest of a stream read [size] bytes at a time, by the loop of
    [calculate_local_checksum]; the source has [size = 4096]. *)
Definition local_digest (size : N) (f : Checksum.file_obj) (hash_algorithm : string) : string :=
  let hash_func := Checksum.hashlib_new hash_algorithm in
  let hash_func := Checksum.local_loop size hash_func f in
  Checksum.hexdigest (hash_digest world) hash_func.

(** The same by the loop of [calculate_remote_checksum]. *)
Definition remote_digest (size : N) (f : Checksum.file_obj) (hash_algorithm : string) : string :=
  let hash_func := Checksum.hashlib_new hash_algorithm in
  let hash_func := Checksum.remote_loop size hash_func f in
  Checksum.hexdigest (hash_digest world) hash_func.

Definition calculate_local_checksum (file_path : local_entry) (hash_algorithm : string)
    : M string :=
  emit (EvOpenLocal (le_rel_path file_path)) ;;
  let* f := answer_val (le_open file_path) in
  ret (local_digest 4096 f hash_algorithm).

Definition calculate_remote_checksum (sftp : sftp_client) (remote_path : string)
    (contents : exn + Checksum.file_obj) (hash_algorithm : string) : M string :=
  let* f := sftp_open_rb sftp remote_path contents in
  ret (remote_digest 4096 f hash_algorithm).

Definition get_local_files (base_path : string) : M nat :=
  let* files := dict_new in
  emit (EvRglob base_path) ;;
  for_each (local_tree world base_path) (λ path,
    if le_is_file path then
      let rel_path := le_rel_path path in
      let* c := calculate_local_checksum path "sha256" in
      dict_setitem files rel_path {| checksum := c; full_path := None |}
    else ret tt) ;;
  ret files.

(** The body of the loop of [recursive_list] for one entry; for a directory
    it is the recursive call [recursive_list(full_path, rel_path)]. *)
Fixpoint visit (sftp : sftp_client) (files : nat) (path relative_root : string)
    (entry : remote_entry) {struct entry} : M unit :=
  match entry with
  | RDir filename listing_error entries =>
      let full_path := path +:+ "/" +:+ filename in
      let rel_path := joinpath relative_root filename in
      listdir_attr sftp full_path listing_error ;;
      for_each entries (visit sftp files full_path rel_path)
  | RFile filename contents =>
      let full_path := path +:+ "/" +:+ filename in
      let rel_path := joinpath relative_root filename in
      let* checksum := calculate_remote_checksum sftp full_path contents "sha256" in
      dict_setitem files rel_path {| checksum := checksum; full_path := Some full_path |}
  end.

Definition recursive_list (sftp : sftp_client) (files : nat) (path relative_root : string)
    (listing_error : option exn) (entries : list remote_entry) : M unit :=
  listdir_attr sftp path listing_error ;;
  for_each entries (visit sftp files path relative_root).

Definition get_remote_files (sftp : sftp_client) (base_path : string) : M nat :=
  let* files := dict_new in
  let h := host world (sftp_server sftp) in
  recursive_list sftp files base_path "." (root_listing_error h) (root_entries h) ;;
  ret files.

Definition compare_files (source_files dest_files : gmap string file_record)
    : gset string * gset string * gset string :=
  let source_set := dom source_files in
  let dest_set := dom dest_files in
  let added := source_set ∖ dest_set in
  let deleted := dest_set ∖ source_set in
  let modified :=
    filter (λ file, checksum <$> source_files !! file ≠ checksum <$> dest_files !! file)
           (source_set ∩ dest_set) in
  (added, deleted, modified).

Definition delete_remote_files (sftp : sftp_client) (files_to_delete : gset string)
    (remote_base_path : string) : M unit :=
  for_each (elements files_to_delete) (λ file,
    let remote_file_path := remote_base_path +:+ "/" +:+ file in
    try_except
      (sftp_remove world sftp remote_file_path ;;
       print (MsgRemoved remote_file_path))
      (λ e, match e with
            | FileNotFoundError _ => Some (print (MsgNotFound remote_file_path))
            | _ => if is_Exception e
                   then Some (print (MsgRemoveError remote_file_path e))
                   else None
            end)).

(** [x if x else "Brak"] *)
Definition or_brak (x : gset string) : option (gset string) :=
  if decide (x = ∅) then None else Some x.

(** The statements under [try:] in the loop of [compare_directories]. *)
Definition try_block (a : arguments) (source_files : nat) (server : string) (ssh : nat)
    : M unit :=
  (if truthy (key_path a) then
     let* key := from_private_key_file world (default "" (key_path a)) in
     ssh_connect world ssh server (username a) (Pkey key)
   else
     ssh_connect world ssh server (username a) (Password (password a))) ;;
  let* sftp := open_sftp world ssh server in
  let* dest_files := get_remote_files sftp (remote_path a) in
  let* src := dict_contents source_files in
  let* dst := dict_contents dest_files in
  let '(added, deleted, modified) := compare_files src dst in
  print (MsgAdded (or_brak added)) ;;
  print (MsgDeleted (or_brak deleted)) ;;
  print (MsgModified (or_brak modified)) ;;
  (if auto_delete a && bool_decide (deleted ≠ ∅) then
     let* confirm := input world (size deleted) server in
     if decide (lower confirm = "tak") then
       delete_remote_files sftp deleted (remote_path a)
     else
       print MsgSkipped
   else ret tt) ;;
  sftp_close world sftp.

(** The body of [for server in servers] in [compare_directories]. *)
Definition loop_body (a : arguments) (source_files : nat) (server : string) : M unit :=
  print (MsgComparing server) ;;
  let* ssh := SSHClient in
  try_finally
    (try_except
       (try_block a source_files server ssh)
       (λ e, if is_Exception e then Some (print (MsgConnError server e)) else None))
    (ssh_close ssh server).

Definition compare_directories (a : arguments) : M unit :=
  let* source_files := get_local_files (source_path a) in
  for_each (servers a) (loop_body a source_files).
End Script.
End V1.

(** ** v2.py *)

Module V2.
Section Script.
Variable world : env.

(** The digest of a stream read [size] bytes at a time, by the loop of
    [calculate_local_checksum]; the source has [size = 4096]. *)
Definition local_digest (size : N) (f : Checksum.file_obj) (hash_algorithm : string) : string :=
  let hash_func := Checksum.hashlib_new hash_algorithm in
  let hash_func := Checksum.local_loop size hash_func f in
  Checksum.hexdigest (hash_digest world) hash_func.

(** The same by the loop of [calculate_remote_checksum]. *)
Definition remote_digest (size : N) (f : Checksum.file_obj) (hash_algorithm : string) : string :=
  let hash_func := Checksum.hashlib_new hash_algorithm in
  let hash_func := Checksum.remote_loop size hash_func f in
  Checksum.hexdigest (hash_digest world) hash_func.

Definition calculate_local_checksum (file_path : local_entry) (hash_algorithm : string)
    : M string :=
  emit (EvOpenLocal (le_rel_path file_path)) ;;
  let* f := answer_val (le_open file_path) in
  ret (local_digest 4096 f hash_algorithm).

Definition calculate_remote_checksum (sftp : sftp_client) (remote_path : string)
    (contents : exn + Checksum.file_obj) (hash_algorithm : string) : M string :=
  let* f := sftp_open_rb sftp remote_path contents in
  ret (remote_digest 4096 f hash_algorithm).

Definition get_local_files (base_path : string) : M nat :=
  let* files := dict_new in
  emit (EvRglob base_path) ;;
  for_each (local_tree world base_path) (λ path,
    if le_is_file path then
      let rel_path := le_rel_path path in
      let* c := calculate_local_checksum path "sha256" in
      dict_setitem files rel_path {| checksum := c; full_path := None |}
    else ret tt) ;;
  ret files.

(** The body of the loop of [recursive_list] for one entry; for a directory
    it is the recursive call [recursive_list(full_path, rel_path)]. *)
Fixpoint visit (sftp : sftp_client) (files : nat) (path relative_root : string)
    (entry : remote_entry) {struct entry} : M unit :=
  match entry with
  | RDir filename listing_error entries =>
      let full_path := path +:+ "/" +:+ filename in
      let rel_path := joinpath relative_root filename in
      listdir_attr sftp full_path listing_error ;;
      for_each entries (visit sftp files full_path rel_path)
  | RFile filename contents =>
      let full_path := path +:+ "/" +:+ filename in
      let rel_path := joinpath relative_root filename in
      let* checksum := calculate_remote_checksum sftp full_path contents "sha256" in
      dict_setitem files rel_path {| checksum := checksum; full_path := Some full_path |}
  end.

Definition recursive_list (sftp : sftp_client) (files : nat) (path relative_root : string)
    (listing_error : option exn) (entries : list remote_entry) : M unit :=
  listdir_attr sftp path listing_error ;;
  for_each entries (visit sftp files path relative_root).

Definition get_remote_files (sftp : sftp_client) (base_path : string) : M nat :=
  let* files := dict_new in
  let h := host world (sftp_server sftp) in
  recursive_list sftp files base_path "." (root_listing_error h) (root_entries h) ;;
  ret files.

Definition compare_files (source_files dest_files : gmap string file_record)
    : gset string * gset string * gset string :=
  let source_set := dom source_files in
  let dest_set := dom dest_files in
  let added := source_set ∖ dest_set in
  let deleted := dest_set ∖ source_set in
  let modified :=
    filter (λ file, checksum <$> source_files !! file ≠ checksum <$> dest_files !! file)
           (source_set ∩ dest_set) in
  (added, deleted, modified).

Definition delete_remote_files (sftp : sftp_client) (files_to_delete : gset string)
    (remote_base_path : string) : M unit :=
  for_each (elements files_to_delete) (λ file,
    let remote_file_path := remote_base_path +:+ "/" +:+ file in
    try_except
      (sftp_remove world sftp remote_file_path ;;
       log_colored (MsgRemoved remote_file_path) RED)
      (λ e, match e with
            | FileNotFoundError _ => Some (log_colored (MsgNotFound remote_file_path) RED)
            | _ => if is_Exception e
                   then Some (log_colored (MsgRemoveError remote_file_path e) RED)
                   else None
            end)).

(** [set(source_files.keys()) & set(dest_files.keys()) - modified]: in
    Python [-] binds tighter than [&]. *)
Definition unchanged_of (source_files dest_files : gmap string file_record)
    (modified : gset string) : gset string :=
  dom source_files ∩ (dom dest_files ∖ modified).

(** The statements under [try:] in the loop of [compare_directories]. *)
Definition try_block (a : arguments) (source_files : nat) (server : string) (ssh : nat)
    : M unit :=
  (if truthy (key_path a) then
     let* key := from_private_key_file world (default "" (key_path a)) in
     ssh_connect world ssh server (username a) (Pkey key)
   else
     ssh_connect world ssh server (username a) (Password (password a))) ;;
  let* sftp := open_sftp world ssh server in
  let* dest_files := get_remote_files sftp (remote_path a) in
  let* src := dict_contents source_files in
  let* dst := dict_contents dest_files in
  let '(added, deleted, modified) := compare_files src dst in
  (if bool_decide (added ≠ ∅) then
     for_each (elements added) (λ file, log_colored (MsgAddedFile file) GREEN)
   else log_colored MsgNoAdded RESET_ALL) ;;
  (if bool_decide (deleted ≠ ∅) then
     for_each (elements deleted) (λ file, log_colored (MsgDeletedFile file) RED)
   else log_colored MsgNoDeleted RESET_ALL) ;;
  (if bool_decide (modified ≠ ∅) then
     for_each (elements modified) (λ file, log_colored (MsgModifiedFile file) YELLOW)
   else log_colored MsgNoModified RESET_ALL) ;;
  let unchanged := unchanged_of src dst modified in
  (if bool_decide (unchanged ≠ ∅) then
     for_each (elements unchanged)
              (λ file, log_colored (MsgUnchangedFile file) RESET_ALL)
   else ret tt) ;;
  (if auto_delete a && bool_decide (deleted ≠ ∅) then
     let* confirm := input world (size deleted) server in
     if decide (lower confirm = "tak") then
       delete_remote_files sftp deleted (remote_path a)
     else
       log_colored MsgSkipped RESET_ALL
   else ret tt) ;;
  sftp_close world sftp.

(** The body of [for server in servers] in [compare_directories]. *)
Definition loop_body (a : arguments) (source_files : nat) (server : string) : M unit :=
  log_colored (MsgComparing server) CYAN ;;
  let* ssh := SSHClient in
  try_finally
    (try_except
       (try_block a source_files server ssh)
       (λ e, if is_Exception e then Some (log_colored (MsgConnError server e) RED) else None))
    (ssh_close ssh server).

Definition compare_directories (a : arguments) : M unit :=
  let* source_files := get_local_files (source_path a) in
  for_each (servers a) (loop_body a source_files).
End Script.
End V2.

(** * Properties *)

(** ** The differ *)

Section Differ.
Implicit Types source dest : gmap string file_record.

Lemma V1_modified_spec source dest file :
  file ∈ (V1.compare_files source dest).2 ↔
  ∃ s d, source !! file = Some s ∧ dest !! file = Some d ∧ checksum s ≠ checksum d.
Proof.
  unfold V1.compare_files. simpl.
  rewrite elem_of_filter, elem_of_intersection, !elem_of_dom. split.
  - intros [Hne [[s Hs] [d Hd]]]. exists s, d. rewrite Hs, Hd in Hne. simpl in Hne.
    split_and!; [done | done | congruence].
  - intros (s & d & Hs & Hd & Hne). rewrite Hs, Hd. simpl.
    split_and!; [congruence | by eexists | by eexists].
Qed.

Lemma V2_modified_spec source dest file :
  file ∈ (V2.compare_files source dest).2 ↔
  ∃ s d, source !! file = Some s ∧ dest !! file = Some d ∧ checksum s ≠ checksum d.
Proof.
  unfold V2.compare_files. simpl.
  rewrite elem_of_filter, elem_of_intersection, !elem_of_dom. split.
  - intros [Hne [[s Hs] [d Hd]]]. exists s, d. rewrite Hs, Hd in Hne. simpl in Hne.
    split_and!; [done | done | congruence].
  - intros (s & d & Hs & Hd & Hne). rewrite Hs, Hd. simpl.
    split_and!; [congruence | by eexists | by eexists].
Qed.

Lemma modified_subseteq source dest :
  (V1.compare_files source dest).2 ⊆ dom source ∩ dom dest ∧
  (V2.compare_files source dest).2 ⊆ dom source ∩ dom dest.
Proof.
  split; intros file; [rewrite V1_modified_spec | rewrite V2_modified_spec];
    intros (s & d & Hs & Hd & _);
    apply elem_of_intersection; split; apply elem_of_dom; by eexists.
Qed.
End Differ.

(** The result of the differ as the specification words it. *)
Definition diff_spec (source dest : gmap string file_record)
    (added deleted modified : gset string) : Prop :=
  added = dom source ∖ dom dest ∧
  deleted = dom dest ∖ dom source ∧
  (∀ k, k ∈ modified ↔
        k ∈ dom source ∩ dom dest ∧
        ∃ s d, source !! k = Some s ∧ dest !! k = Some d ∧ checksum s ≠ checksum d).

(** C1. For every pair of snapshots, [compare_files] (of v1 and of v2)
    returns added = keys(source) − keys(destination), deleted =
    keys(destination) − keys(source) and modified = the keys in both whose
    checksums differ; the three sets are pairwise disjoint. *)
Theorem compare_files_correct (source dest : gmap string file_record) :
  (let '(added, deleted, modified) := V1.compare_files source dest in
   diff_spec source dest added deleted modified ∧
   added ∩ deleted = ∅ ∧ added ∩ modified = ∅ ∧ deleted ∩ modified = ∅) ∧
  (let '(added, deleted, modified) := V2.compare_files source dest in
   diff_spec source dest added deleted modified ∧
   added ∩ deleted = ∅ ∧ added ∩ modified = ∅ ∧ deleted ∩ modified = ∅).
Proof.
  destruct (modified_subseteq source dest) as [H1 H2].
  split.
  - pose proof (V1_modified_spec source dest) as Hm.
    destruct (V1.compare_files source dest) as [[added deleted] modified] eqn:E.
    assert (added = dom source ∖ dom dest) as -> by (by inversion E).
    assert (deleted = dom dest ∖ dom source) as -> by (by inversion E).
    simpl in *. split; [| set_solver].
    split_and!; [done | done |]. intros k. rewrite Hm. split.
    + intros (s & d & Hs & Hd & Hne). split; [| by exists s, d].
      apply elem_of_intersection; split; apply elem_of_dom; by eexists.
    + by intros [_ H].
  - pose proof (V2_modified_spec source dest) as Hm.
    destruct (V2.compare_files source dest) as [[added deleted] modified] eqn:E.
    assert (added = dom source ∖ dom dest) as -> by (by inversion E).
    assert (deleted = dom dest ∖ dom source) as -> by (by inversion E).
    simpl in *. split; [| set_solver].
    split_and!; [done | done |]. intros k. rewrite Hm. split.
    + intros (s & d & Hs & Hd & Hne). split; [| by exists s, d].
      apply elem_of_intersection; split; apply elem_of_dom; by eexists.
    + by intros [_ H].
Qed.

(** C7. For every snapshot S, [compare_files(S, S)] returns three empty
    sets, in v1 and in v2. *)
Theorem compare_files_same (S : gmap string file_record) :
  V1.compare_files S S = (∅, ∅, ∅) ∧ V2.compare_files S S = (∅, ∅, ∅).
Proof.
  assert (∀ X : gset string, (∀ k, k ∉ X) → X = ∅) as Hempty by set_solver.
  split.
  - pose proof (V1_modified_spec S S) as Hm.
    unfold V1.compare_files in *. simpl in *.
    f_equal; [f_equal; set_solver |].
    apply Hempty. intros k. rewrite Hm. intros (s & d & Hs & Hd & Hne). congruence.
  - pose proof (V2_modified_spec S S) as Hm.
    unfold V2.compare_files in *. simpl in *.
    f_equal; [f_equal; set_solver |].
    apply Hempty. intros k. rewrite Hm. intros (s & d & Hs & Hd & Hne). congruence.
Qed.

(** The unchanged set as the specification defines it, from the inputs and
    the differ's [modified]. *)
Definition unchanged_spec (source dest : gmap string file_record)
    (modified : gset string) : gset string :=
  (dom source ∩ dom dest) ∖ modified.

(** C6. For every pair of snapshots, the unchanged set that v2 derives, by
    the expression [set(source_files.keys()) & set(dest_files.keys()) -
    modified], equals (keys(source) ∩ keys(destination)) − modified. *)
Theorem unchanged_reproducible (source dest : gmap string file_record) :
  V2.unchanged_of source dest (V2.compare_files source dest).2 =
  unchanged_spec source dest (V2.compare_files source dest).2.
Proof.
  unfold V2.unchanged_of, unchanged_spec. set_solver.
Qed.

(** ** The checksum engine *)

Section ChecksumLoops.
Import Checksum.

Lemma read_pending size f :
  pending f = ((read size f).1 ++ pending (read size f).2)%list.
Proof. unfold read. destruct (short_reads f); simpl; by rewrite take_drop. Qed.

(** With a positive size, only the end of the stream gives an empty read. *)
Lemma read_empty size f :
  (0 < size)%N → (read size f).1 = [] → pending f = [].
Proof.
  unfold read. destruct (short_reads f) as [|c cs]; simpl; intros Hpos Hnil.
  - destruct (pending f) as [|b bs]; [done |].
    destruct (N.to_nat size) eqn:E; [lia | done].
  - destruct (pending f) as [|b bs]; [done |].
    destruct (N.to_nat (N.min size (N.pos c))) eqn:E; [lia | done].
Qed.

Lemma update_nil h : update h [] = h.
Proof. destruct h. unfold update. simpl. by rewrite app_nil_r. Qed.

Lemma update_update h a b : update (update h a) b = update h (a ++ b).
Proof. unfold update. simpl. by rewrite app_assoc. Qed.

Lemma local_loop_spec size h f :
  (0 < size)%N → local_loop size h f = update h (pending f).
Proof.
  intros Hpos. funelim (local_loop size h f).
  - pose proof (read_empty size f Hpos) as Hnil. rewrite e in Hnil.
    rewrite Hnil by done. by rewrite update_nil.
  - rewrite H by done. rewrite update_update.
    pose proof (read_pending size f) as Hp. rewrite E in Hp. simpl in Hp.
    by rewrite Hp.
Qed.

Lemma remote_loop_spec size h f :
  (0 < size)%N → remote_loop size h f = update h (pending f).
Proof.
  intros Hpos. funelim (remote_loop size h f).
  - pose proof (read_empty size f Hpos) as Hnil. rewrite E in Hnil.
    rewrite Hnil by done. by rewrite update_nil.
  - rewrite H by done. rewrite update_update.
    pose proof (read_pending size f) as Hp. rewrite E in Hp. simpl in Hp.
    by rewrite Hp.
Qed.

Lemma hex_digit_lower n : is_lower_hex (hex_digit n) = true.
Proof.
  unfold hex_digit.
  repeat (match goal with |- context [match ?x with _ => _ end] => destruct x end;
          try reflexivity).
Qed.

Lemma hex_lower bs :
  Forall (λ c, is_lower_hex c = true) (list_ascii_of_string (hex bs)).
Proof.
  induction bs as [|b bs IH]; simpl; [constructor |].
  repeat constructor; auto using hex_digit_lower.
Qed.

End ChecksumLoops.

Section ChecksumDigests.
Variable world : env.
Import Checksum.

(** What both loops compute: the hexadecimal digest of the whole content. *)
Definition content_digest (hash_algorithm : string) (data : list Byte.byte) : string :=
  hex (hash_digest world hash_algorithm data).

Lemma V1_local_digest size f alg :
  (0 < size)%N → V1.local_digest world size f alg = content_digest alg (pending f).
Proof.
  intros H. unfold V1.local_digest, hexdigest, content_digest.
  by rewrite local_loop_spec.
Qed.

Lemma V1_remote_digest size f alg :
  (0 < size)%N → V1.remote_digest world size f alg = content_digest alg (pending f).
Proof.
  intros H. unfold V1.remote_digest, hexdigest, content_digest.
  by rewrite remote_loop_spec.
Qed.

Lemma V2_local_digest size f alg :
  (0 < size)%N → V2.local_digest world size f alg = content_digest alg (pending f).
Proof.
  intros H. unfold V2.local_digest, hexdigest, content_digest.
  by rewrite local_loop_spec.
Qed.

Lemma V2_remote_digest size f alg :
  (0 < size)%N → V2.remote_digest world size f alg = content_digest alg (pending f).
Proof.
  intros H. unfold V2.remote_digest, hexdigest, content_digest.
  by rewrite remote_loop_spec.
Qed.
End ChecksumDigests.

(** C5. For every byte sequence, whatever short reads the two streams make:
    reading 1, 4096 or 1,000,000 bytes at a time gives the same digest, that
    of the whole content, and
    [calculate_local_checksum] on a local file and
    [calculate_remote_checksum] on a remote file of the same content both
    return the same string, made of lowercase hexadecimal digits only. *)
Theorem checksum_chunking_and_paths
    (world : env) (data : list Byte.byte) (lshort rshort : list positive)
    (hash_algorithm rel_path remote_path : string) (is_file : bool)
    (sftp : sftp_client) (σ σ' : store) :
  let lf := {| Checksum.pending := data; Checksum.short_reads := lshort |} in
  let rf := {| Checksum.pending := data; Checksum.short_reads := rshort |} in
  let local_file := {| le_rel_path := rel_path; le_is_file := is_file; le_open := inr lf |} in
  let d := V1.local_digest world 4096 lf hash_algorithm in
  d = content_digest world hash_algorithm data ∧
  V1.local_digest world 1 lf hash_algorithm = d ∧
  V1.local_digest world 1000000 lf hash_algorithm = d ∧
  V1.remote_digest world 1 rf hash_algorithm = d ∧
  V1.remote_digest world 4096 rf hash_algorithm = d ∧
  V1.remote_digest world 1000000 rf hash_algorithm = d ∧
  outcome (V1.calculate_local_checksum world local_file hash_algorithm σ) = inr d ∧
  outcome (V1.calculate_remote_checksum world sftp remote_path (inr rf) hash_algorithm σ')
    = inr d ∧
  Forall (λ c, Checksum.is_lower_hex c = true) (list_ascii_of_string d).
Proof.
  intros lf rf local_file d. subst d.
  rewrite !V1_local_digest, !V1_remote_digest by done.
  split_and!; try done.
  - unfold V1.calculate_local_checksum. simpl. by rewrite V1_local_digest.
  - unfold V1.calculate_remote_checksum. simpl.
    by rewrite V1_remote_digest.
  - apply hex_lower.
Qed.

(** ** Reasoning about computations in [M] *)

Section ForEach.
Context {A : Type}.

Lemma for_each_cons (x : A) xs body :
  for_each (x :: xs) body = (body x ;; for_each xs body).
Proof. reflexivity. Qed.

Lemma bind_run {B C} (m : M B) (k : B → M C) σ :
  bind m k σ =
  match outcome (m σ) with
  | inl e => Result (inl e) (final (m σ)) (emitted (m σ))
  | inr b => Result (outcome (k b (final (m σ)))) (final (k b (final (m σ))))
                    (emitted (m σ) ++ emitted (k b (final (m σ))))
  end.
Proof. reflexivity. Qed.

Lemma result_eta {B} (r : result B) : Result (outcome r) (final r) (emitted r) = r.
Proof. by destruct r. Qed.

(** Running a loop over [xs ++ ys] is running it over [xs] and, when that
    returns, over [ys] from the state reached. *)
Lemma for_each_app (xs ys : list A) body σ :
  for_each (xs ++ ys) body σ = (for_each xs body ;; for_each ys body) σ.
Proof.
  revert σ. induction xs as [|x xs IH]; intros σ.
  - rewrite bind_run. simpl. by rewrite result_eta.
  - rewrite <- app_comm_cons, !for_each_cons.
    rewrite (bind_run (body x)), (bind_run (body x ;; for_each xs body)).
    rewrite (bind_run (body x)).
    destruct (outcome (body x σ)) as [e|[]] eqn:E; simpl; [done |].
    rewrite IH, bind_run.
    destruct (outcome (for_each xs body (final (body x σ)))) as [e|[]]; simpl;
      [done | by rewrite app_assoc].
Qed.
End ForEach.

(** A result with a trace put before its own. *)
Definition after (t : list event) {A} (r : result A) : result A :=
  Result (outcome r) (final r) (t ++ emitted r).

(** *** A logic for computations *)

(** A property of traces that composes: it holds of the empty trace and of
    the concatenation of two traces that have it. *)
Class Composable (T : list event → Prop) : Type := {
  composable_nil : T [];
  composable_app : ∀ t t', T t → T t' → T (t ++ t')
}.

#[global] Instance Forall_composable (P : event → Prop) : Composable (Forall P).
Proof. split; [constructor | intros; by apply Forall_app]. Qed.

#[global] Instance any_trace_composable : Composable (λ _, True).
Proof. by split. Qed.

(** [triple I T m Q]: from a heap with [I], the computation [m] ends (by a
    return or by an exception) in a heap with [I], what it emits has [T], and
    a value it returns has [Q]. *)
Definition triple (I : store → Prop) (T : list event → Prop) {A} (m : M A)
    (Q : A → Prop) : Prop :=
  ∀ σ, I σ → I (final (m σ)) ∧ T (emitted (m σ)) ∧ ∀ a, outcome (m σ) = inr a → Q a.

Section Triples.
Context (I : store → Prop) (T : list event → Prop) `{!Composable T}.

Lemma triple_conseq {A} (m : M A) (Q Q' : A → Prop) :
  triple I T m Q → (∀ a, Q a → Q' a) → triple I T m Q'.
Proof.
  intros H HQ σ Hσ. destruct (H σ Hσ) as (? & ? & ?). split_and!; auto.
Qed.

Lemma triple_ret {A} (a : A) (Q : A → Prop) : Q a → triple I T (ret a) Q.
Proof.
  intros H σ Hσ. simpl. split_and!; [done | apply composable_nil |].
  by intros ? [= <-].
Qed.

Lemma triple_raise {A} e (Q : A → Prop) : triple I T (raise e) Q.
Proof. intros σ Hσ. simpl. split_and!; [done | apply composable_nil | done]. Qed.

(** A step that emits nothing. *)
Lemma triple_quiet {A} (m : M A) (Q : A → Prop) :
  (∀ σ, emitted (m σ) = []) →
  (∀ σ, I σ → I (final (m σ)) ∧ ∀ a, outcome (m σ) = inr a → Q a) →
  triple I T m Q.
Proof.
  intros He H σ Hσ. rewrite He. destruct (H σ Hσ).
  split_and!; [done | apply composable_nil | done].
Qed.

Lemma triple_emit ev (Q : unit → Prop) : T [ev] → Q tt → triple I T (emit ev) Q.
Proof. intros H HQ σ Hσ. simpl. split_and!; [done | done |]. by intros [] _. Qed.

Lemma triple_answer o (Q : unit → Prop) : Q tt → triple I T (answer o) Q.
Proof. intros HQ. destruct o; [apply triple_raise | by apply triple_ret]. Qed.

Lemma triple_answer_val {A} (o : exn + A) (Q : A → Prop) :
  (∀ a, o = inr a → Q a) → triple I T (answer_val o) Q.
Proof. intros HQ. destruct o; [apply triple_raise | apply triple_ret; auto]. Qed.

Lemma triple_dict_contents d (Q : gmap string file_record → Prop) :
  (∀ σ, I σ → Q (default ∅ (dicts σ !! d))) → triple I T (dict_contents d) Q.
Proof.
  intros HQ. apply triple_quiet; [done |]. intros σ Hσ. simpl.
  split; [done |]. intros ? [= <-]. auto.
Qed.

Lemma triple_bind {A B} (m : M A) (k : A → M B) (Q : A → Prop) (R : B → Prop) :
  triple I T m Q → (∀ a, Q a → triple I T (k a) R) → triple I T (bind m k) R.
Proof.
  intros Hm Hk σ Hσ. rewrite bind_run.
  destruct (Hm σ Hσ) as (HI & HT & HQ).
  destruct (outcome (m σ)) as [e|a]; simpl; [done |].
  destruct (Hk a (HQ a eq_refl) _ HI) as (? & ? & ?).
  split_and!; [done | by apply composable_app | done].
Qed.

Lemma triple_seq {A B} (m : M A) (k : M B) (R : B → Prop) :
  triple I T m (λ _, True) → triple I T k R → triple I T (m ;; k) R.
Proof. intros Hm Hk. eapply triple_bind; [exact Hm | by intros _ _]. Qed.

Lemma triple_try_except {A} (body : M A) handler (Q : A → Prop) :
  triple I T body Q → (∀ e h, handler e = Some h → triple I T h Q) →
  triple I T (try_except body handler) Q.
Proof.
  intros Hb Hh σ Hσ. unfold try_except. cbv zeta.
  destruct (Hb σ Hσ) as (HI & HT & HQ).
  destruct (outcome (body σ)) as [e|a] eqn:Eo; [| by rewrite Eo].
  destruct (handler e) as [h|] eqn:E; [| by rewrite Eo].
  destruct (Hh e h E _ HI) as (? & ? & ?). simpl.
  split_and!; [done | by apply composable_app | done].
Qed.

Lemma triple_try_finally {A} (body : M A) fin (Q : A → Prop) :
  triple I T body Q → triple I T fin (λ _, True) →
  triple I T (try_finally body fin) Q.
Proof.
  intros Hb Hf σ Hσ. unfold try_finally. simpl.
  destruct (Hb σ Hσ) as (HI & HT & HQ).
  destruct (Hf _ HI) as (? & ? & _).
  split_and!; [done | by apply composable_app |].
  intros a. destruct (outcome (fin _)); [done | apply HQ].
Qed.

Lemma triple_for_each {A} (xs : list A) body (Q : unit → Prop) :
  Q tt → (∀ x, x ∈ xs → triple I T (body x) (λ _, True)) →
  triple I T (for_each xs body) Q.
Proof.
  intros HQ. induction xs as [|x xs IH]; intros H.
  - by apply triple_ret.
  - rewrite for_each_cons. eapply triple_bind.
    + apply H. by left.
    + intros _ _. apply IH. intros y Hy. apply H. by right.
Qed.
End Triples.

(** Applying a rule of the logic: the premise that the trace property
    composes is settled by instance search. *)
Ltac composes := try lazymatch goal with |- Composable _ => exact _ end.
Tactic Notation "rule" uconstr(lem) := (apply lem; composes).
Tactic Notation "erule" uconstr(lem) := (eapply lem; composes).

(** One step of a proof of a [triple], by the shape of the computation.  A
    postcondition still to be chosen is taken to be [True]. *)
Ltac triple_step :=
  first
    [ lazymatch goal with
      | |- triple _ _ _ ?Q => is_evar Q; refine (_ : triple _ _ _ (λ _, True))
      end
    | lazymatch goal with
      | |- triple _ _ (bind ?m (λ _, ?k)) _ => rule triple_seq
      | |- triple _ _ (bind _ _) _ => erule triple_bind; [| intros ? ?; cbv beta in * ]
      | |- triple _ _ (ret _) _ => rule triple_ret
      | |- triple _ _ (raise _) _ => rule triple_raise
      | |- triple _ _ (emit _) _ => rule triple_emit
      | |- triple _ _ (print _) _ => rule triple_emit
      | |- triple _ _ (log_colored _ _) _ => rule triple_emit
      | |- triple _ _ (answer _) _ => rule triple_answer
      | |- triple _ _ (answer_val _) _ => rule triple_answer_val; intros ? ?
      | |- triple _ _ (dict_contents _) _ => rule triple_dict_contents; intros ? ?
      | |- triple _ _ (try_except _ _) _ =>
          rule triple_try_except;
          [| let E := fresh in intros ? ? E; repeat case_match; simplify_eq/=]
      | |- triple _ _ (try_finally _ _) _ => rule triple_try_finally
      | |- triple _ _ (for_each _ _) _ => rule triple_for_each; [| intros ? ?]
      | |- triple _ _ (if ?b then _ else _) _ => destruct b
      | |- triple _ _ (match ?x with _ => _ end) _ => destruct x
      end ].

(** ** The remediator *)

(** What is written about the removal of one path, by the answer of
    [sftp.remove]: removed, not found (informational), or an error. *)
Definition removal_message (remote_file_path : string) (answer : option exn) : message :=
  match answer with
  | None => MsgRemoved remote_file_path
  | Some (FileNotFoundError _) => MsgNotFound remote_file_path
  | Some e => MsgRemoveError remote_file_path e
  end.

Section Remediator.
Variable world : env.
Variable sftp : sftp_client.
Variable remote_base_path : string.

Let remote_file (file : string) : string := remote_base_path +:+ "/" +:+ file.
Let removal (file : string) : option exn :=
  remove_result (host world (sftp_server sftp)) (remote_file file).

(** No removal is interrupted from outside: every exception that
    [sftp.remove] raises for these files is an [Exception]. *)
Definition removals_fail_softly (files : list string) : Prop :=
  ∀ file e, file ∈ files → removal file = Some e → is_Exception e = true.

Definition V1_removal_trace (file : string) : list event :=
  [EvSftpRemove (sftp_server sftp) (remote_file file);
   EvPrint (removal_message (remote_file file) (removal file))].

Definition V2_removal_trace (file : string) : list event :=
  [EvSftpRemove (sftp_server sftp) (remote_file file);
   EvLog RED (removal_message (remote_file file) (removal file))].

Lemma V1_delete_loop files σ :
  removals_fail_softly files →
  for_each files (λ file,
    let remote_file_path := remote_base_path +:+ "/" +:+ file in
    try_except
      (sftp_remove world sftp remote_file_path ;;
       print (MsgRemoved remote_file_path))
      (λ e, match e with
            | FileNotFoundError _ => Some (print (MsgNotFound remote_file_path))
            | _ => if is_Exception e
                   then Some (print (MsgRemoveError remote_file_path e))
                   else None
            end)) σ
  = Result (inr tt) σ (flat_map V1_removal_trace files).
Proof.
  revert σ. induction files as [|file files IH]; intros σ Hsoft; [done |].
  rewrite for_each_cons, bind_run.
  assert (removals_fail_softly files) as Hrest
    by (intros f e Hf; apply Hsoft; by right).
  specialize (Hsoft file). unfold removal, remote_file in Hsoft.
  unfold try_except, sftp_remove, V1_removal_trace, removal, remote_file.
  rewrite !bind_run. simpl.
  destruct (remove_result _ _) as [e|] eqn:E; simpl.
  - specialize (Hsoft e (ltac:(by left)) eq_refl).
    destruct e; simpl in *; [| | done]; by rewrite IH.
  - by rewrite IH.
Qed.

Lemma V2_delete_loop files σ :
  removals_fail_softly files →
  for_each files (λ file,
    let remote_file_path := remote_base_path +:+ "/" +:+ file in
    try_except
      (sftp_remove world sftp remote_file_path ;;
       log_colored (MsgRemoved remote_file_path) RED)
      (λ e, match e with
            | FileNotFoundError _ => Some (log_colored (MsgNotFound remote_file_path) RED)
            | _ => if is_Exception e
                   then Some (log_colored (MsgRemoveError remote_file_path e) RED)
                   else None
            end)) σ
  = Result (inr tt) σ (flat_map V2_removal_trace files).
Proof.
  revert σ. induction files as [|file files IH]; intros σ Hsoft; [done |].
  rewrite for_each_cons, bind_run.
  assert (removals_fail_softly files) as Hrest
    by (intros f e Hf; apply Hsoft; by right).
  specialize (Hsoft file). unfold removal, remote_file in Hsoft.
  unfold try_except, sftp_remove, V2_removal_trace, removal, remote_file.
  rewrite !bind_run. simpl.
  destruct (remove_result _ _) as [e|] eqn:E; simpl.
  - specialize (Hsoft e (ltac:(by left)) eq_refl).
    destruct e; simpl in *; [| | done]; by rewrite IH.
  - by rewrite IH.
Qed.
End Remediator.

(** C3. For every set of paths whose removals raise nothing but
    [Exception]s, [delete_remote_files] (of v1 and of v2) calls [sftp.remove]
    once for every path of the set, writes "removed", "not found" or
    "error" for it by the answer, goes on with the next path whatever the
    answer was, and returns normally with the heap as it was. *)
Theorem delete_remote_files_total
    (world : env) (sftp : sftp_client) (files_to_delete : gset string)
    (remote_base_path : string) (σ : store) :
  removals_fail_softly world sftp remote_base_path (elements files_to_delete) →
  V1.delete_remote_files world sftp files_to_delete remote_base_path σ
    = Result (inr tt) σ
        (flat_map (V1_removal_trace world sftp remote_base_path) (elements files_to_delete)) ∧
  V2.delete_remote_files world sftp files_to_delete remote_base_path σ
    = Result (inr tt) σ
        (flat_map (V2_removal_trace world sftp remote_base_path) (elements files_to_delete)).
Proof.
  intros Hsoft. split.
  - by apply V1_delete_loop.
  - by apply V2_delete_loop.
Qed.

(** ** The remote scanner *)

(** Induction on remote trees, with the hypothesis for every entry of a
    directory. *)
Lemma remote_entry_nested_ind (P : remote_entry → Prop) :
  (∀ filename contents, P (RFile filename contents)) →
  (∀ filename err entries, Forall P entries → P (RDir filename err entries)) →
  ∀ entry, P entry.
Proof.
  intros Hfile Hdir. fix IH 1. intros [filename contents | filename err entries].
  - apply Hfile.
  - apply Hdir.
    refine ((fix all (es : list remote_entry) : Forall P es :=
               match es with
               | [] => Forall_nil_2 P
               | e :: es' => Forall_cons_2 P e es' (IH e) (all es')
               end) entries).
Qed.

(** The effects of connecting to a target and scanning its tree. *)
Definition is_attempt_event (ev : event) : Prop :=
  match ev with
  | EvLoadKey _ | EvConnect _ _ _ | EvOpenSftp _ | EvListdir _ _ | EvSftpOpen _ _ => True
  | _ => False
  end.

Section ScanFacts.
Context (world : env) (I : store → Prop) (T : list event → Prop) `{!Composable T}.
Context (may_write : nat → Prop).
Hypothesis I_dict_new :
  ∀ σ, I σ → I (final (dict_new σ)) ∧ may_write (fresh (dom (dicts σ))).
Hypothesis I_dict_setitem :
  ∀ d k v σ, may_write d → I σ → I (final (dict_setitem d k v σ)).
Hypothesis T_attempt : ∀ ev, is_attempt_event ev → T [ev].

Lemma triple_dict_new : triple I T dict_new may_write.
Proof.
  rule triple_quiet; [done |]. intros σ Hσ. destruct (I_dict_new σ Hσ).
  split; [done |]. by intros ? [= <-].
Qed.

Lemma triple_dict_setitem d k v :
  may_write d → triple I T (dict_setitem d k v) (λ _, True).
Proof.
  intros Hd. rule triple_quiet; [done |].
  intros σ Hσ. split; [by apply I_dict_setitem | done].
Qed.

Lemma V1_visit_triple sftp files path relative_root entry :
  may_write files →
  triple I T (V1.visit world sftp files path relative_root entry) (λ _, True).
Proof.
  intros Hw. revert path relative_root.
  induction entry as [filename contents | filename err entries IH]
    using remote_entry_nested_ind; intros path relative_root; simpl.
  - unfold V1.calculate_remote_checksum, sftp_open_rb.
    repeat triple_step; try done; try (by apply T_attempt).
    by apply triple_dict_setitem.
  - unfold listdir_attr. repeat triple_step; try done; try (by apply T_attempt).
    rewrite Forall_forall in IH. by apply IH.
Qed.
Lemma V1_get_remote_files_triple sftp base_path :
  triple I T (V1.get_remote_files world sftp base_path) may_write.
Proof.
  unfold V1.get_remote_files, V1.recursive_list, listdir_attr.
  erule triple_bind; [apply triple_dict_new | intros files Hfiles].
  repeat triple_step; try done; try (by apply T_attempt).
  by apply V1_visit_triple.
Qed.

Lemma V2_visit_triple sftp files path relative_root entry :
  may_write files →
  triple I T (V2.visit world sftp files path relative_root entry) (λ _, True).
Proof.
  intros Hw. revert path relative_root.
  induction entry as [filename contents | filename err entries IH]
    using remote_entry_nested_ind; intros path relative_root; simpl.
  - unfold V2.calculate_remote_checksum, sftp_open_rb.
    repeat triple_step; try done; try (by apply T_attempt).
    by apply triple_dict_setitem.
  - unfold listdir_attr. repeat triple_step; try done; try (by apply T_attempt).
    rewrite Forall_forall in IH. by apply IH.
Qed.

Lemma V2_get_remote_files_triple sftp base_path :
  triple I T (V2.get_remote_files world sftp base_path) may_write.
Proof.
  unfold V2.get_remote_files, V2.recursive_list, listdir_attr.
  erule triple_bind; [apply triple_dict_new | intros files Hfiles].
  repeat triple_step; try done; try (by apply T_attempt).
  by apply V2_visit_triple.
Qed.
End ScanFacts.

(** ** The remediator, interrupted or not *)

(** The reports of the remediator. *)
Definition is_removal_message (msg : message) : Prop :=
  match msg with
  | MsgRemoved _ | MsgNotFound _ | MsgRemoveError _ _ => True
  | _ => False
  end.

(** What [delete_remote_files] emits for a server: removals on that server
    and reports of them. *)
Definition is_removal_event (server : string) (ev : event) : Prop :=
  match ev with
  | EvSftpRemove s _ => s = server
  | EvPrint msg | EvLog _ msg => is_removal_message msg
  | _ => False
  end.

Section RemovalFacts.
Context (world : env) (I : store → Prop).

Lemma V1_delete_remote_files_triple sftp files_to_delete remote_base_path :
  triple I (Forall (is_removal_event (sftp_server sftp)))
         (V1.delete_remote_files world sftp files_to_delete remote_base_path)
         (λ _, True).
Proof.
  unfold V1.delete_remote_files, sftp_remove.
  repeat triple_step; try done; by repeat constructor.
Qed.

Lemma V2_delete_remote_files_triple sftp files_to_delete remote_base_path :
  triple I (Forall (is_removal_event (sftp_server sftp)))
         (V2.delete_remote_files world sftp files_to_delete remote_base_path)
         (λ _, True).
Proof.
  unfold V2.delete_remote_files, sftp_remove.
  repeat triple_step; try done; by repeat constructor.
Qed.
End RemovalFacts.

(** ** The statements under [try:] *)

(** The reports of the sets that the differ returned. *)
Definition is_diff_message (msg : message) : Prop :=
  match msg with
  | MsgAdded _ | MsgDeleted _ | MsgModified _
  | MsgAddedFile _ | MsgDeletedFile _ | MsgModifiedFile _ | MsgUnchangedFile _ => True
  | _ => False
  end.

(** The effects of processing a target other than removals and reports of
    the diff: everything but those, the local scan and [sftp.remove]. *)
Definition is_target_event (ev : event) : Prop :=
  match ev with
  | EvRglob _ | EvOpenLocal _ | EvSftpRemove _ _ => False
  | EvPrint msg | EvLog _ msg => ¬ is_diff_message msg
  | _ => True
  end.

(** The event reports the diff of [source] against [dest]: a set of v1's
    report is a set of [compare_files source dest], a file of v2's report is
    in the set it is reported for. *)
Definition reports_diff (source dest : gmap string file_record) (ev : event) : Prop :=
  let '(added, deleted, modified) := V1.compare_files source dest in
  match ev with
  | EvPrint (MsgAdded x) => x = V1.or_brak added
  | EvPrint (MsgDeleted x) => x = V1.or_brak deleted
  | EvPrint (MsgModified x) => x = V1.or_brak modified
  | EvLog _ (MsgAddedFile file) => file ∈ added
  | EvLog _ (MsgDeletedFile file) => file ∈ deleted
  | EvLog _ (MsgModifiedFile file) => file ∈ modified
  | EvLog _ (MsgUnchangedFile file) => file ∈ V2.unchanged_of source dest modified
  | _ => False
  end.

Lemma attempt_is_target ev : is_attempt_event ev → is_target_event ev.
Proof. by destruct ev. Qed.

(** The operator answered the prompt of [server] with "tak", in any case. *)
Definition confirmed (world : env) (server : string) : Prop :=
  ∃ answer, operator_answer (host world server) = inr answer ∧ lower answer = "tak".

Section TryBlockFacts.
Context (world : env) (a : arguments) (source_files : nat) (server : string) (ssh : nat).
Context (I : store → Prop) (T : list event → Prop) `{!Composable T}.
Context (may_write : nat → Prop) (Src : gmap string file_record → Prop).
Hypothesis I_dict_new :
  ∀ σ, I σ → I (final (dict_new σ)) ∧ may_write (fresh (dom (dicts σ))).
Hypothesis I_dict_setitem :
  ∀ d k v σ, may_write d → I σ → I (final (dict_setitem d k v σ)).
Hypothesis I_session : ∀ s σ, I σ → I (final (set_session ssh s σ)).
Hypothesis I_source : ∀ σ, I σ → Src (default ∅ (dicts σ !! source_files)).
Hypothesis T_event : ∀ ev, is_target_event ev → T [ev].
Hypothesis T_report : ∀ src dst ev, Src src → reports_diff src dst ev → T [ev].
Hypothesis T_confirmed :
  ∀ n t, auto_delete a = true → 0 < n → confirmed world server →
         Forall (is_removal_event server) t → T (EvInput n server :: t).

Lemma triple_set_session s : triple I T (set_session ssh s) (λ _, True).
Proof. rule triple_quiet; [done |]. intros σ Hσ. split; [by apply I_session | done]. Qed.

Lemma triple_ssh_connect cred :
  triple I T (ssh_connect world ssh server (username a) cred) (λ _, True).
Proof.
  unfold ssh_connect. repeat triple_step; try done; try (by apply T_event; simpl; tauto).
  apply triple_set_session.
Qed.

Lemma triple_open_sftp :
  triple I T (open_sftp world ssh server)
         (λ sftp, sftp_ssh sftp = ssh ∧ sftp_server sftp = server).
Proof.
  unfold open_sftp. repeat triple_step; try done; try (by apply T_event; simpl; tauto).
  apply triple_set_session.
Qed.

Lemma triple_sftp_close sftp :
  sftp_ssh sftp = ssh → triple I T (sftp_close world sftp) (λ _, True).
Proof.
  intros Hssh. unfold sftp_close. rewrite Hssh. repeat triple_step; try done; try (by apply T_event; simpl; tauto).
  apply triple_set_session.
Qed.

(** The prompt and what follows it. *)
Lemma triple_confirm_block (deleted : gset string) (delete skip : M unit) :
  triple I (Forall (is_removal_event server)) delete (λ _, True) →
  triple I T skip (λ _, True) →
  triple I T
    (if auto_delete a && bool_decide (deleted ≠ ∅) then
       let* confirm := input world (size deleted) server in
       if decide (lower confirm = "tak") then delete else skip
     else ret tt)
    (λ _, True).
Proof.
  intros Hdelete Hskip.
  destruct (auto_delete a) eqn:Hauto; simpl; [| by rule triple_ret].
  case_bool_decide as Hne; [| by rule triple_ret].
  assert (0 < size deleted) as Hpos.
  { destruct (decide (size deleted = 0)) as [Hz|]; [| lia].
    by apply size_empty_iff, leibniz_equiv in Hz. }
  intros σ Hσ. unfold input. rewrite !bind_run. simpl.
  destruct (operator_answer (host world server)) as [e|answer] eqn:Hanswer; simpl.
  - split_and!; [done | by apply T_event | done].
  - destruct (decide (lower answer = "tak")) as [Hyes|Hno].
    + destruct (Hdelete σ Hσ) as (HI & HT & _).
      split_and!; [done | | done]. apply T_confirmed; [done | done | | done].
      by exists answer.
    + destruct (Hskip σ Hσ) as (HI & HT & _).
      split_and!; [done | | done].
      apply (composable_app [_]); [by apply T_event | done].
Qed.

Lemma V1_try_block_triple :
  triple I T (V1.try_block world a source_files server ssh) (λ _, True).
Proof.
  unfold V1.try_block, from_private_key_file.
  repeat first
    [ apply triple_ssh_connect
    | apply triple_open_sftp
    | erule V1_get_remote_files_triple;
      [done | done | by intros; apply T_event, attempt_is_target]
    | rule (triple_dict_contents I T source_files Src); exact I_source
    | match goal with
      | H : sftp_ssh _ = ssh ∧ sftp_server _ = server |- _ => destruct H as [? ?]
      | |- triple _ _ (match V1.compare_files ?s ?d with _ => _ end) _ =>
          change (V1.compare_files s d) with (V1.compare_files s d);
          destruct (V1.compare_files s d) as [[? ?] ?] eqn:?
      end
    | rule triple_confirm_block;
      [ match goal with H : sftp_server _ = server |- _ => rewrite <- H end;
        apply V1_delete_remote_files_triple |]
    | by apply triple_sftp_close
    | triple_step ];
    try done;
    first
      [ by apply T_event; simpl; tauto
      | match goal with
        | E : V1.compare_files ?s ?d = _ |- _ =>
            apply (T_report s d); [assumption |];
            unfold reports_diff; rewrite E; first [done | by apply elem_of_elements]
        end ].
Qed.

Lemma V2_try_block_triple :
  triple I T (V2.try_block world a source_files server ssh) (λ _, True).
Proof.
  unfold V2.try_block, from_private_key_file.
  repeat first
    [ apply triple_ssh_connect
    | apply triple_open_sftp
    | erule V2_get_remote_files_triple;
      [done | done | by intros; apply T_event, attempt_is_target]
    | rule (triple_dict_contents I T source_files Src); exact I_source
    | match goal with
      | H : sftp_ssh _ = ssh ∧ sftp_server _ = server |- _ => destruct H as [? ?]
      | |- triple _ _ (match V2.compare_files ?s ?d with _ => _ end) _ =>
          change (V2.compare_files s d) with (V1.compare_files s d);
          destruct (V1.compare_files s d) as [[? ?] ?] eqn:?
      end
    | rule triple_confirm_block;
      [ match goal with H : sftp_server _ = server |- _ => rewrite <- H end;
        apply V2_delete_remote_files_triple |]
    | by apply triple_sftp_close
    | triple_step ];
    try done;
    first
      [ by apply T_event; simpl; tauto
      | match goal with
        | E : V1.compare_files ?s ?d = _ |- _ =>
            apply (T_report s d); [assumption |];
            unfold reports_diff; rewrite E; first [done | by apply elem_of_elements]
        end ].
Qed.
End TryBlockFacts.

(** ** Release of the session *)

Definition closed_session : session :=
  {| transport_active := false; sftp_open := false |}.

(** Every SSH client of the heap has its transport down and its SFTP channel
    closed. *)
Definition all_released (σ : store) : Prop :=
  ∀ c s, clients σ !! c = Some s → s = closed_session.

(** The same of every client but [ssh]. *)
Definition others_released (ssh : nat) (σ : store) : Prop :=
  ∀ c s, c ≠ ssh → clients σ !! c = Some s → s = closed_session.

Section Release.
Context (world : env) (a : arguments) (source_files : nat) (server : string).

Lemma others_released_session ssh s σ :
  others_released ssh σ → others_released ssh (final (set_session ssh s σ)).
Proof.
  intros H c s' Hc. simpl. rewrite lookup_insert_ne by done. by apply H.
Qed.

Lemma V1_try_block_others ssh :
  triple (others_released ssh) (λ _, True)
         (V1.try_block world a source_files server ssh) (λ _, True).
Proof.
  apply V1_try_block_triple with (may_write := λ _, True) (Src := λ _, True);
    try done; try apply _.
  intros. by apply others_released_session.
Qed.

Lemma V2_try_block_others ssh :
  triple (others_released ssh) (λ _, True)
         (V2.try_block world a source_files server ssh) (λ _, True).
Proof.
  apply V2_try_block_triple with (may_write := λ _, True) (Src := λ _, True);
    try done; try apply _.
  intros. by apply others_released_session.
Qed.

(** After [ssh.close()] in the [finally] clause every client is released
    again, and the close is the last effect. *)
Lemma finally_releases (body : nat → M unit) (ev : event) σ :
  (∀ ssh, triple (others_released ssh) (λ _, True) (body ssh) (λ _, True)) →
  all_released σ →
  let r := (emit ev ;; let* ssh := SSHClient in
            try_finally (body ssh) (ssh_close ssh server)) σ in
  all_released (final r) ∧ ∃ t, emitted r = t ++ [EvSshClose server].
Proof.
  intros Hbody Hσ r. subst r.
  rewrite !bind_run. unfold try_finally. simpl.
  set (ssh := fresh (dom (clients σ))).
  set (σ1 := {| dicts := dicts σ; clients := <[ssh := _]> (clients σ) |}).
  assert (others_released ssh σ1) as H1.
  { intros c s Hc. simpl. rewrite lookup_insert_ne by done. apply Hσ. }
  destruct (Hbody ssh σ1 H1) as (H2 & _ & _). split.
  - intros c s. simpl. destruct (decide (c = ssh)) as [->|Hc].
    + rewrite lookup_insert_eq. by intros [= <-].
    + rewrite lookup_insert_ne by done. by apply H2.
  - by eexists (ev :: emitted (body ssh σ1)).
Qed.

Lemma V1_loop_body_releases σ :
  all_released σ →
  let r := V1.loop_body world a source_files server σ in
  all_released (final r) ∧ ∃ t, emitted r = t ++ [EvSshClose server].
Proof.
  intros Hσ. apply finally_releases; [| done]. intros ssh.
  repeat triple_step; try done. apply V1_try_block_others.
Qed.

Lemma V2_loop_body_releases σ :
  all_released σ →
  let r := V2.loop_body world a source_files server σ in
  all_released (final r) ∧ ∃ t, emitted r = t ++ [EvSshClose server].
Proof.
  intros Hσ. apply finally_releases; [| done]. intros ssh.
  repeat triple_step; try done. apply V2_try_block_others.
Qed.

Lemma for_each_releases (body : string → M unit) targets σ :
  (∀ target σ, all_released σ → all_released (final (body target σ))) →
  all_released σ → all_released (final (for_each targets body σ)).
Proof.
  intros Hbody. revert σ. induction targets as [|target targets IH]; intros σ Hσ; [done |].
  rewrite for_each_cons, bind_run.
  destruct (outcome (body target σ)); simpl; [by apply Hbody |].
  apply IH. by apply Hbody.
Qed.
End Release.

(** C8. From a heap where every session is released, one iteration of the
    loop of [compare_directories] (of v1 and of v2), however it ends, leaves
    every session released: the SSH client it created has its transport down
    and its SFTP channel closed, by [ssh.close()], which is the last effect of
    the iteration.  So it is after any number of targets, before the next one
    is processed. *)
Theorem session_released_on_every_exit
    (world : env) (a : arguments) (source_files : nat) (σ : store) :
  all_released σ →
  (∀ server,
     let r1 := V1.loop_body world a source_files server σ in
     let r2 := V2.loop_body world a source_files server σ in
     all_released (final r1) ∧ (∃ t, emitted r1 = t ++ [EvSshClose server]) ∧
     all_released (final r2) ∧ (∃ t, emitted r2 = t ++ [EvSshClose server])) ∧
  (∀ processed rest, servers a = processed ++ rest →
     all_released (final (for_each processed (V1.loop_body world a source_files) σ)) ∧
     all_released (final (for_each processed (V2.loop_body world a source_files) σ))).
Proof.
  intros Hσ. split.
  - intros server.
    pose proof (V1_loop_body_releases world a source_files server σ Hσ) as H1.
    pose proof (V2_loop_body_releases world a source_files server σ Hσ) as H2.
    cbv zeta in *. destruct H1, H2. repeat split; assumption.
  - intros processed rest _. split.
    + apply for_each_releases; [| done]. intros target σ' Hσ'.
      by apply V1_loop_body_releases.
    + apply for_each_releases; [| done]. intros target σ' Hσ'.
      by apply V2_loop_body_releases.
Qed.

(** ** One iteration of the loop, and the loop *)

Section LoopFacts.
Context (world : env) (a : arguments) (source_files : nat).
Context (I : store → Prop) (T : list event → Prop) `{!Composable T}.
Context (may_write : nat → Prop) (Src : gmap string file_record → Prop).
Hypothesis I_dict_new :
  ∀ σ, I σ → I (final (dict_new σ)) ∧ may_write (fresh (dom (dicts σ))).
Hypothesis I_dict_setitem :
  ∀ d k v σ, may_write d → I σ → I (final (dict_setitem d k v σ)).
Hypothesis I_client_new : ∀ σ, I σ → I (final (SSHClient σ)).
Hypothesis I_session : ∀ ssh s σ, I σ → I (final (set_session ssh s σ)).
Hypothesis I_source : ∀ σ, I σ → Src (default ∅ (dicts σ !! source_files)).
Hypothesis T_event : ∀ ev, is_target_event ev → T [ev].
Hypothesis T_report : ∀ src dst ev, Src src → reports_diff src dst ev → T [ev].
Hypothesis T_confirmed :
  ∀ server n t, auto_delete a = true → 0 < n → confirmed world server →
                Forall (is_removal_event server) t → T (EvInput n server :: t).

Lemma triple_SSHClient : triple I T SSHClient (λ _, True).
Proof. rule triple_quiet; [done |]. intros σ Hσ. split; [by apply I_client_new | done]. Qed.

Lemma triple_ssh_close ssh server : triple I T (ssh_close ssh server) (λ _, True).
Proof.
  unfold ssh_close. repeat triple_step; try done; try (by apply T_event; simpl; tauto).
  rule triple_quiet; [done |]. intros σ Hσ. split; [by apply I_session | done].
Qed.

Lemma V1_loop_body_triple server :
  triple I T (V1.loop_body world a source_files server) (λ _, True).
Proof.
  unfold V1.loop_body.
  repeat first
    [ apply triple_SSHClient
    | apply triple_ssh_close
    | apply (V1_try_block_triple _ _ _ _ _ I T may_write Src);
      [done | done | by auto | done | done | done | by auto]
    | triple_step ];
    try done; by apply T_event; simpl; tauto.
Qed.

Lemma V2_loop_body_triple server :
  triple I T (V2.loop_body world a source_files server) (λ _, True).
Proof.
  unfold V2.loop_body.
  repeat first
    [ apply triple_SSHClient
    | apply triple_ssh_close
    | apply (V2_try_block_triple _ _ _ _ _ I T may_write Src);
      [done | done | by auto | done | done | done | by auto]
    | triple_step ];
    try done; by apply T_event; simpl; tauto.
Qed.

Lemma V1_loop_triple targets :
  triple I T (for_each targets (V1.loop_body world a source_files)) (λ _, True).
Proof. rule triple_for_each; [done |]. intros. apply V1_loop_body_triple. Qed.

Lemma V2_loop_triple targets :
  triple I T (for_each targets (V2.loop_body world a source_files)) (λ _, True).
Proof. rule triple_for_each; [done |]. intros. apply V2_loop_body_triple. Qed.
End LoopFacts.

(** ** The local snapshot *)

Definition is_local_scan_event (ev : event) : Prop :=
  match ev with
  | EvRglob _ | EvOpenLocal _ => True
  | _ => False
  end.

Definition is_open_local_event (ev : event) : Prop :=
  match ev with
  | EvOpenLocal _ => True
  | _ => False
  end.

Section LocalSnapshot.
Context (world : env) (a : arguments).

(** The heap holds the dict [source_files] with the contents [S]. *)
Definition holds (source_files : nat) (S : gmap string file_record) (σ : store) : Prop :=
  dicts σ !! source_files = Some S.

Lemma holds_dict_new src S σ :
  holds src S σ → holds src S (final (dict_new σ)) ∧ fresh (dom (dicts σ)) ≠ src.
Proof.
  unfold holds. intros H. simpl.
  assert (fresh (dom (dicts σ)) ≠ src) as Hne.
  { intros <-. apply (is_fresh (dom (dicts σ))). apply elem_of_dom. by eexists. }
  split; [| done]. by rewrite lookup_insert_ne.
Qed.

Lemma holds_dict_setitem src S d k v σ :
  d ≠ src → holds src S σ → holds src S (final (dict_setitem d k v σ)).
Proof. unfold holds. intros Hne H. simpl. by rewrite lookup_alter_ne. Qed.

(** What processing targets may emit when the source dict holds [S]: no
    effect of the local scan, and reports of the diff only for diffs of [S]
    against some snapshot. *)
Definition diffed_against (S : gmap string file_record) (ev : event) : Prop :=
  ¬ is_local_scan_event ev ∧
  match ev with
  | EvPrint msg | EvLog _ msg => is_diff_message msg → ∃ D, reports_diff S D ev
  | _ => True
  end.

Definition compares_with (S : gmap string file_record) (t : list event) : Prop :=
  Forall (diffed_against S) t.

#[global] Instance compares_with_composable S : Composable (compares_with S).
Proof. exact (Forall_composable _). Defined.

Lemma compares_with_target S ev : is_target_event ev → compares_with S [ev].
Proof.
  intros H. repeat constructor; unfold diffed_against; destruct ev; simpl in *; tauto.
Qed.

Lemma compares_with_report S dst ev : reports_diff S dst ev → compares_with S [ev].
Proof.
  intros H. repeat constructor.
  - unfold reports_diff in H. destruct (V1.compare_files S dst) as [[? ?] ?].
    destruct ev; simpl; tauto.
  - destruct ev; try done; intros _; by exists dst.
Qed.

Lemma compares_with_removals S server n t :
  Forall (is_removal_event server) t → compares_with S (EvInput n server :: t).
Proof.
  intros H. constructor; [unfold diffed_against; simpl; tauto |].
  eapply Forall_impl; [exact H |]. intros ev Hev. unfold diffed_against.
  destruct ev as [| | | | | | | | | | | msg | c msg];
    simpl in *; try tauto; destruct msg; simpl in *; tauto.
Qed.

Lemma V1_loop_keeps_snapshot src S targets σ :
  holds src S σ →
  let r := for_each targets (V1.loop_body world a src) σ in
  holds src S (final r) ∧ compares_with S (emitted r).
Proof.
  intros Hσ.
  assert (triple (holds src S) (compares_with S)
                 (for_each targets (V1.loop_body world a src)) (λ _, True)) as H.
  { apply (V1_loop_triple world a src (holds src S) (compares_with S)
             (λ d, d ≠ src) (λ src', src' = S)).
    - apply holds_dict_new.
    - intros. by apply holds_dict_setitem.
    - done.
    - done.
    - intros σ' Hσ'. unfold holds in Hσ'. by rewrite Hσ'.
    - apply compares_with_target.
    - intros src' dst ev ->. apply compares_with_report.
    - intros. by apply compares_with_removals. }
  destruct (H σ Hσ) as (? & ? & _). by split.
Qed.

Lemma V2_loop_keeps_snapshot src S targets σ :
  holds src S σ →
  let r := for_each targets (V2.loop_body world a src) σ in
  holds src S (final r) ∧ compares_with S (emitted r).
Proof.
  intros Hσ.
  assert (triple (holds src S) (compares_with S)
                 (for_each targets (V2.loop_body world a src)) (λ _, True)) as H.
  { apply (V2_loop_triple world a src (holds src S) (compares_with S)
             (λ d, d ≠ src) (λ src', src' = S)).
    - apply holds_dict_new.
    - intros. by apply holds_dict_setitem.
    - done.
    - done.
    - intros σ' Hσ'. unfold holds in Hσ'. by rewrite Hσ'.
    - apply compares_with_target.
    - intros src' dst ev ->. apply compares_with_report.
    - intros. by apply compares_with_removals. }
  destruct (H σ Hσ) as (? & ? & _). by split.
Qed.
End LocalSnapshot.

Section LocalScan.
Context (world : env).

#[local] Instance open_local_composable :
  Composable (Forall is_open_local_event) := Forall_composable _.

Lemma allocated_setitem files d k v σ :
  is_Some (dicts σ !! files) → is_Some (dicts (final (dict_setitem d k v σ)) !! files).
Proof.
  intros [S HS]. simpl. destruct (decide (d = files)) as [->|Hne].
  - rewrite lookup_alter_eq, HS. by eexists.
  - rewrite lookup_alter_ne by done. by eexists.
Qed.

(** [get_local_files] walks the tree once, then opens files; the dict it
    returns is in the heap. *)
Lemma V1_get_local_files_run base_path σ :
  let r0 := V1.get_local_files world base_path σ in
  (∃ t, emitted r0 = EvRglob base_path :: t ∧ Forall is_open_local_event t) ∧
  (∀ src, outcome r0 = inr src → ∃ S, dicts (final r0) !! src = Some S).
Proof.
  unfold V1.get_local_files. cbv zeta.
  rewrite bind_run. simpl. rewrite bind_run. simpl.
  set (files := fresh (dom (dicts σ))).
  set (σ1 := {| dicts := <[files := ∅]> (dicts σ); clients := clients σ |}).
  match goal with |- context [for_each ?xs ?f] => set (L := for_each xs f) end.
  assert (triple (λ σ', is_Some (dicts σ' !! files)) (Forall is_open_local_event)
                 L (λ _, True)) as HL.
  { subst L. unfold V1.calculate_local_checksum.
    repeat triple_step; try done; try (by repeat constructor).
    rule triple_quiet; [done |]. intros σ' Hσ'. split; [| done].
    by apply allocated_setitem. }
  destruct (HL σ1) as (Halloc & Hopen & _).
  { subst σ1. simpl. rewrite lookup_insert_eq. by eexists. }
  destruct (outcome (L σ1)) as [e|[]]; simpl.
  - split; [by eexists | done].
  - rewrite app_nil_r. split; [by eexists |].
    intros src [= <-]. destruct Halloc as [S HS]. by exists S.
Qed.

Lemma V2_get_local_files_run base_path σ :
  let r0 := V2.get_local_files world base_path σ in
  (∃ t, emitted r0 = EvRglob base_path :: t ∧ Forall is_open_local_event t) ∧
  (∀ src, outcome r0 = inr src → ∃ S, dicts (final r0) !! src = Some S).
Proof.
  unfold V2.get_local_files. cbv zeta.
  rewrite bind_run. simpl. rewrite bind_run. simpl.
  set (files := fresh (dom (dicts σ))).
  set (σ1 := {| dicts := <[files := ∅]> (dicts σ); clients := clients σ |}).
  match goal with |- context [for_each ?xs ?f] => set (L := for_each xs f) end.
  assert (triple (λ σ', is_Some (dicts σ' !! files)) (Forall is_open_local_event)
                 L (λ _, True)) as HL.
  { subst L. unfold V2.calculate_local_checksum.
    repeat triple_step; try done; try (by repeat constructor).
    rule triple_quiet; [done |]. intros σ' Hσ'. split; [| done].
    by apply allocated_setitem. }
  destruct (HL σ1) as (Halloc & Hopen & _).
  { subst σ1. simpl. rewrite lookup_insert_eq. by eexists. }
  destruct (outcome (L σ1)) as [e|[]]; simpl.
  - split; [by eexists | done].
  - rewrite app_nil_r. split; [by eexists |].
    intros src [= <-]. destruct Halloc as [S HS]. by exists S.
Qed.
End LocalScan.

(** What it means that the local snapshot is taken once and then fixed, for
    a version of the script given by its [get_local_files], the body of its
    loop and its [compare_directories]: the walk of the local tree is the
    first effect of the run and happens once; when the local scan fails no
    target is processed; when it returns the dict [src], that dict has the
    same contents [S] from the end of the scan to the start of every target,
    the loop runs on [src], and every report of a diff that the loop writes
    is of a diff of [S] against some snapshot. *)
Definition snapshot_fixed (get_local_files : M nat) (loop_body : nat → string → M unit)
    (compare_directories : M unit) (a : arguments) (σ : store) : Prop :=
  let r0 := get_local_files σ in
  let r := compare_directories σ in
  (∃ t, emitted r = EvRglob (source_path a) :: t ∧
        Forall (λ ev, ∀ p, ev ≠ EvRglob p) t) ∧
  (∀ e, outcome r0 = inl e → r = Result (inl e) (final r0) (emitted r0)) ∧
  (∀ src, outcome r0 = inr src →
     ∃ S, holds src S (final r0) ∧
          (∀ processed rest, servers a = processed ++ rest →
             holds src S (final (for_each processed (loop_body src) (final r0)))) ∧
          compares_with S (emitted (for_each (servers a) (loop_body src) (final r0))) ∧
          r = after (emitted r0) (for_each (servers a) (loop_body src) (final r0))).

Lemma open_local_not_rglob t :
  Forall is_open_local_event t → Forall (λ ev, ∀ p, ev ≠ EvRglob p) t.
Proof. intros Ht. eapply Forall_impl; [exact Ht |]. intros ev H p ->. exact H. Qed.

Lemma compares_with_not_rglob S t :
  compares_with S t → Forall (λ ev, ∀ p, ev ≠ EvRglob p) t.
Proof.
  intros Ht. eapply Forall_impl; [exact Ht |]. intros ev [H _] p ->. by apply H.
Qed.

Lemma snapshot_fixed_intro (get_local_files : M nat) loop_body a σ :
  (let r0 := get_local_files σ in
   (∃ t, emitted r0 = EvRglob (source_path a) :: t ∧ Forall is_open_local_event t) ∧
   (∀ src, outcome r0 = inr src → ∃ S, dicts (final r0) !! src = Some S)) →
  (∀ src S targets σ', holds src S σ' →
     let r := for_each targets (loop_body src) σ' in
     holds src S (final r) ∧ compares_with S (emitted r)) →
  snapshot_fixed get_local_files loop_body
    (let* source_files := get_local_files in
     for_each (servers a) (loop_body source_files)) a σ.
Proof.
  intros [(t & Ht & Hopen) Halloc] Hloop. unfold snapshot_fixed, after. cbv zeta.
  rewrite bind_run.
  destruct (outcome (get_local_files σ)) as [e|src] eqn:E; simpl.
  - split_and!.
    + exists t. split; [done | by apply open_local_not_rglob].
    + by intros ? [= <-].
    + done.
  - destruct (Halloc src eq_refl) as [S HS]. split_and!.
    + eexists. rewrite Ht. split; [done |]. apply Forall_app. split.
      * by apply open_local_not_rglob.
      * apply (compares_with_not_rglob S). by eapply Hloop.
    + done.
    + intros ? [= <-]. exists S. split_and!; [done | | | done].
      * intros processed rest _. by eapply Hloop.
      * by eapply Hloop.
Qed.

(** C9. In every run of [compare_directories] (of v1 and of v2), the local
    tree is walked exactly once, as the first effect of the run, before any
    target is processed; the dict that [get_local_files] returned is the one
    the loop body takes for every target, and its contents are the same at
    the start of every target as at the end of the local scan: no iteration
    of the loop changes it. *)
Theorem local_snapshot_computed_once (world : env) (a : arguments) (σ : store) :
  snapshot_fixed (V1.get_local_files world (source_path a)) (V1.loop_body world a)
                 (V1.compare_directories world a) a σ ∧
  snapshot_fixed (V2.get_local_files world (source_path a)) (V2.loop_body world a)
                 (V2.compare_directories world a) a σ.
Proof.
  split.
  - apply snapshot_fixed_intro.
    + apply V1_get_local_files_run.
    + intros. by apply V1_loop_keeps_snapshot.
  - apply snapshot_fixed_intro.
    + apply V2_get_local_files_run.
    + intros. by apply V2_loop_keeps_snapshot.
Qed.

(** ** The guard on remote deletion *)

(** Every [sftp.remove] of the trace comes after a prompt, for the same
    server and with a positive count of files, that the operator answered
    with "tak", and auto-delete is on. *)
Definition guarded (world : env) (a : arguments) (t : list event) : Prop :=
  ∀ t1 server path t2,
    t = t1 ++ EvSftpRemove server path :: t2 →
    auto_delete a = true ∧ confirmed world server ∧
    ∃ n, 0 < n ∧ EvInput n server ∈ t1.

Section Guard.
Context (world : env) (a : arguments).

#[global] Instance guarded_composable : Composable (guarded world a).
Proof.
  split.
  - intros t1 server path t2 H. by destruct t1.
  - intros t t' Ht Ht' t1 server path t2 H.
    apply app_eq_app in H as [l [[-> Hl] | [-> Hl]]].
    + destruct l as [|ev l]; simpl in Hl.
      * subst t'. destruct (Ht' [] server path t2 eq_refl) as (_ & _ & n & _ & Hin).
        by apply not_elem_of_nil in Hin.
      * injection Hl as <- ->. by apply (Ht t1 server path l).
    + destruct (Ht' l server path t2 Hl) as (? & ? & n & ? & Hin).
      split_and!; [done | done |]. exists n. split; [done |].
      apply elem_of_app. by right.
Qed.

Lemma guarded_target ev : is_target_event ev → guarded world a [ev].
Proof.
  intros Hev t1 server path t2 H. destruct t1 as [|ev' t1]; simpl in H.
  - injection H as ->. done.
  - injection H as _ H. by destruct t1.
Qed.

Lemma guarded_report src dst ev : reports_diff src dst ev → guarded world a [ev].
Proof.
  intros Hev t1 server path t2 H. destruct t1 as [|ev' t1]; simpl in H.
  - injection H as ->. unfold reports_diff in Hev.
    by destruct (V1.compare_files src dst) as [[? ?] ?].
  - injection H as _ H. by destruct t1.
Qed.

Lemma guarded_local ev : is_local_scan_event ev → guarded world a [ev].
Proof.
  intros Hev t1 server path t2 H. destruct t1 as [|ev' t1]; simpl in H.
  - injection H as ->. done.
  - injection H as _ H. by destruct t1.
Qed.

Lemma guarded_confirmed server n t :
  auto_delete a = true → 0 < n → confirmed world server →
  Forall (is_removal_event server) t → guarded world a (EvInput n server :: t).
Proof.
  intros Hauto Hn Hyes Ht t1 server' path t2 H.
  destruct t1 as [|ev t1]; simpl in H; [done |]. injection H as <- ->.
  rewrite Forall_app, Forall_cons in Ht. destruct Ht as (_ & Hrm & _).
  simpl in Hrm. subst server'. split_and!; [done | done |].
  exists n. split; [done | by left].
Qed.

Lemma V1_run_guarded σ : guarded world a (emitted (V1.compare_directories world a σ)).
Proof.
  assert (triple (λ _, True) (guarded world a) (V1.compare_directories world a) (λ _, True))
    as H; [| by destruct (H σ I) as (_ & ? & _)].
  unfold V1.compare_directories, V1.get_local_files, V1.calculate_local_checksum.
  repeat first
    [ apply (V1_loop_triple world a _ (λ _, True) (guarded world a) (λ _, True)
                              (λ _, True));
      [ done | done | done | done | done | apply guarded_target
      | intros; by eapply guarded_report | apply guarded_confirmed ]
    | rule triple_quiet; [done | done]
    | triple_step ];
    try done; by apply guarded_local.
Qed.

Lemma V2_run_guarded σ : guarded world a (emitted (V2.compare_directories world a σ)).
Proof.
  assert (triple (λ _, True) (guarded world a) (V2.compare_directories world a) (λ _, True))
    as H; [| by destruct (H σ I) as (_ & ? & _)].
  unfold V2.compare_directories, V2.get_local_files, V2.calculate_local_checksum.
  repeat first
    [ apply (V2_loop_triple world a _ (λ _, True) (guarded world a) (λ _, True)
                              (λ _, True));
      [ done | done | done | done | done | apply guarded_target
      | intros; by eapply guarded_report | apply guarded_confirmed ]
    | rule triple_quiet; [done | done]
    | triple_step ];
    try done; by apply guarded_local.
Qed.
End Guard.

(** C2. In every run of [compare_directories] (of v1 and of v2), whenever
    [sftp.remove] is called for a server, auto-delete is enabled, and earlier
    in the run the operator was prompted about that server with a positive
    number of files to delete and the answer of the operator is "tak" in any
    case. *)
Theorem deletion_only_after_confirmation
    (world : env) (a : arguments) (σ : store)
    (t1 t2 : list event) (server path : string) :
  (emitted (V1.compare_directories world a σ) = t1 ++ EvSftpRemove server path :: t2 ∨
   emitted (V2.compare_directories world a σ) = t1 ++ EvSftpRemove server path :: t2) →
  auto_delete a = true ∧
  confirmed world server ∧
  ∃ n, 0 < n ∧ EvInput n server ∈ t1.
Proof.
  intros [H | H].
  - by apply (V1_run_guarded world a σ t1 server path t2).
  - by apply (V2_run_guarded world a σ t1 server path t2).
Qed.

(** ** A target that cannot be reached or scanned *)

(** The first error among the answers for a list, if any. *)
Definition first_some {A} (f : A → option exn) : list A → option exn :=
  fix go (xs : list A) : option exn :=
    match xs with
    | [] => None
    | x :: xs' => match f x with Some e => Some e | None => go xs' end
    end.

(** The error that the scan of an entry runs into first: a file that cannot
    be opened, a directory that cannot be listed, or the first error of the
    entries of a directory. *)
Fixpoint entry_error (entry : remote_entry) : option exn :=
  match entry with
  | RFile _ (inl e) => Some e
  | RFile _ (inr _) => None
  | RDir _ (Some e) _ => Some e
  | RDir _ None entries => first_some entry_error entries
  end.

Definition scan_error (h : remote_host) : option exn :=
  match root_listing_error h with
  | Some e => Some e
  | None => first_some entry_error (root_entries h)
  end.

(** The error of loading the key, of [ssh.connect] or of [ssh.open_sftp]. *)
Definition connection_error (world : env) (a : arguments) (server : string) : option exn :=
  let h := host world server in
  let connect cred :=
    match connect_result h (username a) cred with
    | Some e => Some e
    | None => open_sftp_result h
    end in
  if truthy (key_path a) then
    match private_key_file world (default "" (key_path a)) with
    | inl e => Some e
    | inr key => connect (Pkey key)
    end
  else connect (Password (password a)).

(** The connection or scan error of a target, if it has one. *)
Definition target_error (world : env) (a : arguments) (server : string) : option exn :=
  match connection_error world a server with
  | Some e => Some e
  | None => scan_error (host world server)
  end.

Section Failure.
Context (world : env).

Lemma for_each_outcome {A} (f : A → option exn) (xs : list A) body :
  (∀ x σ, x ∈ xs →
     outcome (body x σ) = match f x with Some e => inl e | None => inr tt end) →
  ∀ σ, outcome (for_each xs body σ)
       = match first_some f xs with Some e => inl e | None => inr tt end.
Proof.
  induction xs as [|x xs IH]; intros H σ; [done |].
  rewrite for_each_cons, bind_run, (H x σ) by (by left). simpl.
  destruct (f x); [done |]. simpl. apply IH. intros y σ' Hy. apply H. by right.
Qed.

Lemma V1_visit_outcome sftp files path relative_root entry σ :
  outcome (V1.visit world sftp files path relative_root entry σ)
  = match entry_error entry with Some e => inl e | None => inr tt end.
Proof.
  revert path relative_root σ.
  induction entry as [filename contents | filename err entries IH]
    using remote_entry_nested_ind; intros path relative_root σ; simpl.
  - by destruct contents.
  - rewrite bind_run. destruct err as [e|]; simpl; [done |].
    apply for_each_outcome. intros x σ' Hx.
    rewrite Forall_forall in IH. by apply IH.
Qed.

Lemma V2_visit_outcome sftp files path relative_root entry σ :
  outcome (V2.visit world sftp files path relative_root entry σ)
  = match entry_error entry with Some e => inl e | None => inr tt end.
Proof.
  revert path relative_root σ.
  induction entry as [filename contents | filename err entries IH]
    using remote_entry_nested_ind; intros path relative_root σ; simpl.
  - by destruct contents.
  - rewrite bind_run. destruct err as [e|]; simpl; [done |].
    apply for_each_outcome. intros x σ' Hx.
    rewrite Forall_forall in IH. by apply IH.
Qed.

(** The scan returns exactly when the tree has no error, and raises the
    first error otherwise. *)
Lemma V1_get_remote_files_outcome sftp base_path σ :
  match scan_error (host world (sftp_server sftp)) with
  | Some e => outcome (V1.get_remote_files world sftp base_path σ) = inl e
  | None => ∃ d, outcome (V1.get_remote_files world sftp base_path σ) = inr d
  end.
Proof.
  unfold V1.get_remote_files, V1.recursive_list, scan_error. cbv zeta.
  rewrite bind_run. simpl. rewrite bind_run.
  match goal with |- context [bind ?m _ ?s] => rewrite (bind_run m _ s) end.
  destruct (root_listing_error _) as [e|]; simpl; [done |].
  match goal with |- context [for_each ?xs ?f ?s] =>
    rewrite (for_each_outcome entry_error xs f) by (intros; apply V1_visit_outcome)
  end.
  destruct (first_some _ _); simpl; [done | by eexists].
Qed.

Lemma V2_get_remote_files_outcome sftp base_path σ :
  match scan_error (host world (sftp_server sftp)) with
  | Some e => outcome (V2.get_remote_files world sftp base_path σ) = inl e
  | None => ∃ d, outcome (V2.get_remote_files world sftp base_path σ) = inr d
  end.
Proof.
  unfold V2.get_remote_files, V2.recursive_list, scan_error. cbv zeta.
  rewrite bind_run. simpl. rewrite bind_run.
  match goal with |- context [bind ?m _ ?s] => rewrite (bind_run m _ s) end.
  destruct (root_listing_error _) as [e|]; simpl; [done |].
  match goal with |- context [for_each ?xs ?f ?s] =>
    rewrite (for_each_outcome entry_error xs f) by (intros; apply V2_visit_outcome)
  end.
  destruct (first_some _ _); simpl; [done | by eexists].
Qed.
End Failure.

Section Unreachable.
Context (world : env) (a : arguments) (server : string).

Lemma V1_scan_attempts sftp base_path σ :
  Forall is_attempt_event (emitted (V1.get_remote_files world sftp base_path σ)).
Proof.
  destruct (V1_get_remote_files_triple world (λ _, True) (Forall is_attempt_event)
              (λ _, True)) with (sftp := sftp) (base_path := base_path) (σ := σ)
    as (_ & H & _); try done.
  intros. by repeat constructor.
Qed.

Lemma V2_scan_attempts sftp base_path σ :
  Forall is_attempt_event (emitted (V2.get_remote_files world sftp base_path σ)).
Proof.
  destruct (V2_get_remote_files_triple world (λ _, True) (Forall is_attempt_event)
              (λ _, True)) with (sftp := sftp) (base_path := base_path) (σ := σ)
    as (_ & H & _); try done.
  intros. by repeat constructor.
Qed.

(** A computation that raises [e] after effects of connecting and scanning
    only, and one that returns a value with [Q] after such effects only. *)
Definition fails {A} (e : exn) (m : M A) : Prop :=
  ∀ σ, outcome (m σ) = inl e ∧ Forall is_attempt_event (emitted (m σ)).

Definition passes {A} (m : M A) (Q : A → Prop) : Prop :=
  ∀ σ, Forall is_attempt_event (emitted (m σ)) ∧ ∃ x, outcome (m σ) = inr x ∧ Q x.

Lemma fails_bind {A B} e (m : M A) (k : A → M B) : fails e m → fails e (bind m k).
Proof. intros H σ. rewrite bind_run. destruct (H σ) as [-> ?]. by split. Qed.

Lemma fails_bind_later {A B} e (m : M A) (k : A → M B) (Q : A → Prop) :
  passes m Q → (∀ x, Q x → fails e (k x)) → fails e (bind m k).
Proof.
  intros Hm Hk σ. rewrite bind_run. destruct (Hm σ) as (Ht & x & -> & HQ).
  destruct (Hk x HQ (final (m σ))) as [Ho Ht']. simpl.
  split; [done | by apply Forall_app].
Qed.

Lemma passes_bind {A B} (m : M A) (k : A → M B) (Q : A → Prop) (R : B → Prop) :
  passes m Q → (∀ x, Q x → passes (k x) R) → passes (bind m k) R.
Proof.
  intros Hm Hk σ. rewrite bind_run. destruct (Hm σ) as (Ht & x & -> & HQ).
  destruct (Hk x HQ (final (m σ))) as (Ht' & y & Ho & HR). simpl.
  split; [by apply Forall_app | by exists y].
Qed.

Lemma from_private_key_file_fails key_path e :
  private_key_file world key_path = inl e → fails e (from_private_key_file world key_path).
Proof.
  intros H σ. unfold from_private_key_file. rewrite bind_run. simpl. rewrite H. simpl.
  split; [done | by repeat constructor].
Qed.

Lemma from_private_key_file_passes key_path key :
  private_key_file world key_path = inr key →
  passes (from_private_key_file world key_path) (λ k, k = key).
Proof.
  intros H σ. unfold from_private_key_file. rewrite bind_run. simpl. rewrite H. simpl.
  split; [by repeat constructor | by exists key].
Qed.

Lemma ssh_connect_fails ssh cred e :
  connect_result (host world server) (username a) cred = Some e →
  fails e (ssh_connect world ssh server (username a) cred).
Proof.
  intros H σ. unfold ssh_connect. rewrite !bind_run. simpl. rewrite H. simpl.
  split; [done | by repeat constructor].
Qed.

Lemma ssh_connect_passes ssh cred :
  connect_result (host world server) (username a) cred = None →
  passes (ssh_connect world ssh server (username a) cred) (λ _, True).
Proof.
  intros H σ. unfold ssh_connect. rewrite !bind_run. simpl. rewrite H. simpl.
  split; [by repeat constructor | by exists tt].
Qed.

Lemma open_sftp_fails ssh e :
  open_sftp_result (host world server) = Some e → fails e (open_sftp world ssh server).
Proof.
  intros H σ. unfold open_sftp. rewrite !bind_run. simpl. rewrite H. simpl.
  split; [done | by repeat constructor].
Qed.

Lemma open_sftp_passes ssh :
  open_sftp_result (host world server) = None →
  passes (open_sftp world ssh server) (λ sftp, sftp_server sftp = server).
Proof.
  intros H σ. unfold open_sftp. rewrite !bind_run. simpl. rewrite H. simpl.
  split; [by repeat constructor | by eexists].
Qed.

(** The try block up to the scan, for any scanner [get] that raises the scan
    error of the tree and emits only effects of the scan, and whatever comes
    after it: with a connection or scan error the block raises that error,
    and all it did was to try to connect and scan. *)
Lemma try_block_fails (get : sftp_client → string → M nat)
    (rest : sftp_client → nat → M unit) ssh e σ :
  (∀ sftp base_path σ',
     match scan_error (host world (sftp_server sftp)) with
     | Some e => outcome (get sftp base_path σ') = inl e
     | None => ∃ d, outcome (get sftp base_path σ') = inr d
     end) →
  (∀ sftp base_path σ', Forall is_attempt_event (emitted (get sftp base_path σ'))) →
  target_error world a server = Some e →
  let block :=
    ((if truthy (key_path a) then
        let* key := from_private_key_file world (default "" (key_path a)) in
        ssh_connect world ssh server (username a) (Pkey key)
      else
        ssh_connect world ssh server (username a) (Password (password a))) ;;
     let* sftp := open_sftp world ssh server in
     let* dest_files := get sftp (remote_path a) in
     rest sftp dest_files) in
  outcome (block σ) = inl e ∧ Forall is_attempt_event (emitted (block σ)).
Proof.
  intros Hscan Hattempts H. cbv zeta.
  match goal with |- outcome (?b σ) = _ ∧ _ => revert σ; change (fails e b) end.
  unfold target_error, connection_error in H. cbv zeta in H.
  set (K := let* sftp := open_sftp world ssh server in
            let* dest_files := get sftp (remote_path a) in
            rest sftp dest_files).
  assert (∀ (C : M unit) cred,
    (∀ e', connect_result (host world server) (username a) cred = Some e' → fails e' C) →
    (connect_result (host world server) (username a) cred = None →
     passes C (λ _, True)) →
    match
      match connect_result (host world server) (username a) cred with
      | Some e => Some e
      | None => open_sftp_result (host world server)
      end
    with
    | Some e => Some e
    | None => scan_error (host world server)
    end = Some e →
    fails e (C ;; K)) as Hcred.
  { intros C cred Hfails Hpasses Hc.
    destruct (connect_result _ _ cred) as [e'|].
    { injection Hc as ->. by apply fails_bind, Hfails. }
    eapply fails_bind_later; [by apply Hpasses |]. intros _ _. subst K.
    destruct (open_sftp_result _) as [e'|] eqn:Hopen.
    { injection Hc as ->. by apply fails_bind, open_sftp_fails. }
    eapply fails_bind_later; [by apply open_sftp_passes |]. intros sftp Hsftp.
    apply fails_bind. intros σ. split; [| apply Hattempts].
    specialize (Hscan sftp (remote_path a) σ). by rewrite Hsftp, Hc in Hscan. }
  destruct (truthy (key_path a)).
  - destruct (private_key_file world _) as [e'|key] eqn:Hkey.
    + injection H as ->. by apply fails_bind, fails_bind, from_private_key_file_fails.
    + apply (Hcred _ (Pkey key)); [| | done].
      * intros e' He'.
        eapply fails_bind_later; [by apply from_private_key_file_passes |].
        intros k ->. by apply ssh_connect_fails.
      * intros Hnone.
        eapply passes_bind; [by apply from_private_key_file_passes |].
        intros k ->. by apply ssh_connect_passes.
  - apply (Hcred _ (Password (password a))); [| | done].
    + intros e' He'. by apply ssh_connect_fails.
    + intros Hnone. by apply ssh_connect_passes.
Qed.

Lemma V1_try_block_fails source_files ssh e σ :
  target_error world a server = Some e →
  outcome (V1.try_block world a source_files server ssh σ) = inl e ∧
  Forall is_attempt_event (emitted (V1.try_block world a source_files server ssh σ)).
Proof.
  intros H. unfold V1.try_block.
  apply (try_block_fails (V1.get_remote_files world)); [| | done].
  - apply V1_get_remote_files_outcome.
  - apply V1_scan_attempts.
Qed.

Lemma V2_try_block_fails source_files ssh e σ :
  target_error world a server = Some e →
  outcome (V2.try_block world a source_files server ssh σ) = inl e ∧
  Forall is_attempt_event (emitted (V2.try_block world a source_files server ssh σ)).
Proof.
  intros H. unfold V2.try_block.
  apply (try_block_fails (V2.get_remote_files world)); [| | done].
  - apply V2_get_remote_files_outcome.
  - apply V2_scan_attempts.
Qed.

(** An iteration whose try block raises an [Exception]: the handler reports
    it, the [finally] clause closes the client, the iteration returns. *)
Lemma iteration_fails (header : event) (report : exn → event) (block : nat → M unit) e σ :
  is_Exception e = true →
  (∀ ssh σ', outcome (block ssh σ') = inl e ∧
             Forall is_attempt_event (emitted (block ssh σ'))) →
  ∃ t σ', Forall is_attempt_event t ∧
    (emit header ;;
     let* ssh := SSHClient in
     try_finally
       (try_except (block ssh)
                   (λ e, if is_Exception e then Some (emit (report e)) else None))
       (ssh_close ssh server)) σ
    = Result (inr tt) σ' (header :: t ++ [report e; EvSshClose server]).
Proof.
  intros He Hblock.
  rewrite !bind_run. unfold try_finally, try_except. simpl.
  set (ssh := fresh (dom (clients σ))).
  match goal with |- context [block ssh ?s] => set (σ1 := s) end.
  destruct (Hblock ssh σ1) as [Ho Ht]. rewrite Ho, He. simpl.
  eexists (emitted (block ssh σ1)), _. split; [done |].
  f_equal. f_equal. by rewrite <- app_assoc.
Qed.
End Unreachable.

Lemma for_each_after {A} (x : A) xs body σ σ' t :
  body x σ = Result (inr tt) σ' t →
  for_each (x :: xs) body σ = after t (for_each xs body σ').
Proof. intros H. by rewrite for_each_cons, bind_run, H. Qed.

(** C4. When a target has a connection or scan error that is an
    [Exception], its iteration of the loop (of v1 and of v2) only tries to
    connect and scan, writes the error for that server, closes the client and
    returns normally: nothing is compared, reported, asked or removed for the
    target; and the loop goes on with the remaining targets, its outcome
    being theirs. *)
Theorem failed_target_is_skipped
    (world : env) (a : arguments) (source_files : nat)
    (server : string) (rest : list string) (e : exn) (σ : store) :
  target_error world a server = Some e →
  is_Exception e = true →
  (∃ t σ',
     Forall is_attempt_event t ∧
     let trace :=
       EvPrint (MsgComparing server) :: t ++
       [EvPrint (MsgConnError server e); EvSshClose server] in
     V1.loop_body world a source_files server σ = Result (inr tt) σ' trace ∧
     for_each (server :: rest) (V1.loop_body world a source_files) σ
     = after trace (for_each rest (V1.loop_body world a source_files) σ')) ∧
  (∃ t σ',
     Forall is_attempt_event t ∧
     let trace :=
       EvLog CYAN (MsgComparing server) :: t ++
       [EvLog RED (MsgConnError server e); EvSshClose server] in
     V2.loop_body world a source_files server σ = Result (inr tt) σ' trace ∧
     for_each (server :: rest) (V2.loop_body world a source_files) σ
     = after trace (for_each rest (V2.loop_body world a source_files) σ')).
Proof.
  intros Herr He. split.
  - destruct (iteration_fails server (EvPrint (MsgComparing server))
                (λ e, EvPrint (MsgConnError server e))
                (V1.try_block world a source_files server) e σ He)
      as (t & σ' & Ht & Hrun).
    { intros ssh σ1. by apply V1_try_block_fails. }
    exists t, σ'. split; [done |]. cbv zeta. split; [exact Hrun |].
    apply for_each_after. exact Hrun.
  - destruct (iteration_fails server (EvLog CYAN (MsgComparing server))
                (λ e, EvLog RED (MsgConnError server e))
                (V2.try_block world a source_files server) e σ He)
      as (t & σ' & Ht & Hrun).
    { intros ssh σ1. by apply V2_try_block_fails. }
    exists t, σ'. split; [done |]. cbv zeta. split; [exact Hrun |].
    apply for_each_after. exact Hrun.
Qed.

(** ** v1 and v2 *)

(** Reporting: what [print] and [log_colored] emit. *)
Definition is_report_event (ev : event) : bool :=
  match ev with
  | EvPrint _ | EvLog _ _ => true
  | _ => false
  end.

(** A trace without its reports. *)
Definition effects (t : list event) : list event :=
  List.filter (λ ev, negb (is_report_event ev)) t.

(** Two results that differ in reports only. *)
Definition same_but_reports {A} (r1 r2 : result A) : Prop :=
  outcome r1 = outcome r2 ∧ final r1 = final r2 ∧
  effects (emitted r1) = effects (emitted r2).

(** Two computations that from every heap differ in reports only. *)
Definition sim {A} (m1 m2 : M A) : Prop :=
  ∀ σ, same_but_reports (m1 σ) (m2 σ).

(** A computation that only reports. *)
Definition silent (m : M unit) : Prop :=
  ∀ σ, outcome (m σ) = inr tt ∧ final (m σ) = σ ∧ effects (emitted (m σ)) = [].

Section Simulation.

Lemma effects_app t t' : effects (t ++ t') = effects t ++ effects t'.
Proof. apply List.filter_app. Qed.

Lemma sim_refl {A} (m : M A) : sim m m.
Proof. by intros σ. Qed.

Lemma sim_bind {A B} (m1 m2 : M A) (k1 k2 : A → M B) :
  sim m1 m2 → (∀ x, sim (k1 x) (k2 x)) → sim (bind m1 k1) (bind m2 k2).
Proof.
  intros Hm Hk σ. rewrite !bind_run. destruct (Hm σ) as (Ho & Hf & He).
  rewrite <- Ho, <- Hf. destruct (outcome (m1 σ)) as [e|x]; [done |].
  destruct (Hk x (final (m1 σ))) as (Ho' & Hf' & He').
  split_and!; simpl; [done | done |]. by rewrite !effects_app, He, He'.
Qed.

Lemma sim_try_except {A} (b1 b2 : M A) (h1 h2 : exn → option (M A)) :
  sim b1 b2 →
  (∀ e, match h1 e, h2 e with
        | Some m1, Some m2 => sim m1 m2
        | None, None => True
        | _, _ => False
        end) →
  sim (try_except b1 h1) (try_except b2 h2).
Proof.
  intros Hb Hh σ. unfold try_except. cbv zeta. destruct (Hb σ) as (Ho & Hf & He).
  rewrite <- Ho, <- Hf. destruct (outcome (b1 σ)) as [e|x] eqn:E1.
  - specialize (Hh e). destruct (h1 e) as [m1|], (h2 e) as [m2|]; try done.
    destruct (Hh (final (b1 σ))) as (Ho' & Hf' & He').
    split_and!; simpl; [done | done |]. by rewrite !effects_app, He, He'.
  - split_and!; [by rewrite E1, Ho | done | done].
Qed.

Lemma sim_try_finally {A} (b1 b2 : M A) (f1 f2 : M unit) :
  sim b1 b2 → sim f1 f2 → sim (try_finally b1 f1) (try_finally b2 f2).
Proof.
  intros Hb Hfin σ. unfold try_finally. cbv zeta. destruct (Hb σ) as (Ho & Hf & He).
  rewrite <- Ho, <- Hf. destruct (Hfin (final (b1 σ))) as (Ho' & Hf' & He').
  split_and!; simpl; [by rewrite Ho' | done |]. by rewrite !effects_app, He, He'.
Qed.

Lemma sim_for_each {A} (xs : list A) (b1 b2 : A → M unit) :
  (∀ x, sim (b1 x) (b2 x)) → sim (for_each xs b1) (for_each xs b2).
Proof.
  intros H. induction xs as [|x xs IH]; [apply sim_refl |].
  rewrite !for_each_cons. apply sim_bind; [apply H | by intros _].
Qed.

Lemma silent_ret : silent (ret tt).
Proof. by intros σ. Qed.

Lemma silent_emit ev : is_report_event ev = true → silent (emit ev).
Proof. intros H σ. simpl. unfold effects. simpl. by rewrite H. Qed.

Lemma silent_seq (m k : M unit) : silent m → silent k → silent (m ;; k).
Proof.
  intros Hm Hk σ. rewrite bind_run. destruct (Hm σ) as (Ho & Hf & He).
  rewrite Ho, Hf. destruct (Hk σ) as (Ho' & Hf' & He'). simpl.
  split_and!; [done | done |]. by rewrite effects_app, He, He'.
Qed.

Lemma silent_for_each {A} (xs : list A) (body : A → M unit) :
  (∀ x, silent (body x)) → silent (for_each xs body).
Proof.
  intros H. induction xs as [|x xs IH]; [apply silent_ret |].
  rewrite for_each_cons. by apply silent_seq.
Qed.

Lemma sim_silent (m1 m2 : M unit) : silent m1 → silent m2 → sim m1 m2.
Proof.
  intros H1 H2 σ. destruct (H1 σ) as (? & ? & ?), (H2 σ) as (? & ? & ?).
  split_and!; congruence.
Qed.

Lemma sim_skip_l {A} (m : M unit) (k k' : M A) :
  silent m → sim k k' → sim (m ;; k) k'.
Proof.
  intros Hm Hk σ. rewrite bind_run. destruct (Hm σ) as (Ho & Hf & He).
  rewrite Ho, Hf. destruct (Hk σ) as (Ho' & Hf' & He').
  split_and!; simpl; [done | done |]. by rewrite effects_app, He.
Qed.

Lemma sim_skip_r {A} (m : M unit) (k k' : M A) :
  silent m → sim k k' → sim k (m ;; k').
Proof.
  intros Hm Hk σ. rewrite bind_run. destruct (Hm σ) as (Ho & Hf & He).
  rewrite Ho, Hf. destruct (Hk σ) as (Ho' & Hf' & He').
  split_and!; simpl; [done | done |]. by rewrite effects_app, He.
Qed.
End Simulation.

Section Versions.
Context (world : env).

Lemma compare_files_v1_v2 source dest :
  V1.compare_files source dest = V2.compare_files source dest.
Proof. reflexivity. Qed.

Lemma get_local_files_v1_v2 base_path :
  V1.get_local_files world base_path = V2.get_local_files world base_path.
Proof. reflexivity. Qed.

Lemma get_remote_files_v1_v2 sftp base_path :
  V1.get_remote_files world sftp base_path = V2.get_remote_files world sftp base_path.
Proof. reflexivity. Qed.

Lemma delete_remote_files_sim sftp files_to_delete remote_base_path :
  sim (V1.delete_remote_files world sftp files_to_delete remote_base_path)
      (V2.delete_remote_files world sftp files_to_delete remote_base_path).
Proof.
  unfold V1.delete_remote_files, V2.delete_remote_files.
  apply sim_for_each. intros file. apply sim_try_except.
  - apply sim_bind; [apply sim_refl |]. intros _.
    by apply sim_silent; apply silent_emit.
  - intros [msg | cls msg |]; simpl; [| | done];
      by apply sim_silent; apply silent_emit.
Qed.

Lemma try_block_sim a source_files server ssh :
  sim (V1.try_block world a source_files server ssh)
      (V2.try_block world a source_files server ssh).
Proof.
  unfold V1.try_block, V2.try_block.
  apply sim_bind; [apply sim_refl |]. intros _.
  apply sim_bind; [apply sim_refl |]. intros sftp.
  rewrite get_remote_files_v1_v2.
  apply sim_bind; [apply sim_refl |]. intros dest_files.
  apply sim_bind; [apply sim_refl |]. intros src.
  apply sim_bind; [apply sim_refl |]. intros dst.
  rewrite compare_files_v1_v2.
  destruct (V2.compare_files src dst) as [[added deleted] modified].
  do 3 (apply sim_skip_l; [by apply silent_emit |]).
  do 4 (apply sim_skip_r;
        [case_bool_decide;
         first [ apply silent_ret
               | by apply silent_emit
               | apply silent_for_each; intros; by apply silent_emit ] |]).
  apply sim_bind; [| intros _; apply sim_refl].
  destruct (auto_delete a && bool_decide (deleted ≠ ∅)); [| apply sim_refl].
  apply sim_bind; [apply sim_refl |]. intros confirm.
  destruct (decide (lower confirm = "tak")).
  - apply delete_remote_files_sim.
  - by apply sim_silent; apply silent_emit.
Qed.

Lemma loop_body_sim a source_files server :
  sim (V1.loop_body world a source_files server)
      (V2.loop_body world a source_files server).
Proof.
  unfold V1.loop_body, V2.loop_body.
  apply sim_bind; [by apply sim_silent; apply silent_emit |]. intros _.
  apply sim_bind; [apply sim_refl |]. intros ssh.
  apply sim_try_finally; [| apply sim_refl].
  apply sim_try_except; [apply try_block_sim |].
  intros e. destruct (is_Exception e); [| done].
  by apply sim_silent; apply silent_emit.
Qed.

Lemma compare_directories_sim a :
  sim (V1.compare_directories world a) (V2.compare_directories world a).
Proof.
  unfold V1.compare_directories, V2.compare_directories.
  rewrite get_local_files_v1_v2.
  apply sim_bind; [apply sim_refl |]. intros source_files.
  apply sim_for_each. intros server. apply loop_body_sim.
Qed.
End Versions.

(** C10. The core functions of v2 are those of v1: [compare_files] returns
    the same triple on every pair of snapshots, and
    [calculate_local_checksum] and [calculate_remote_checksum] give the same
    result on every file; and a run of [compare_directories] of v2 ends as
    that of v1 does (same outcome, same heap) after the same effects, in the
    same order, reports apart. *)
Theorem v2_refines_v1 (world : env) :
  (∀ source dest, V2.compare_files source dest = V1.compare_files source dest) ∧
  (∀ file_path hash_algorithm σ,
     V2.calculate_local_checksum world file_path hash_algorithm σ
     = V1.calculate_local_checksum world file_path hash_algorithm σ) ∧
  (∀ sftp remote_path contents hash_algorithm σ,
     V2.calculate_remote_checksum world sftp remote_path contents hash_algorithm σ
     = V1.calculate_remote_checksum world sftp remote_path contents hash_algorithm σ) ∧
  (∀ a σ, same_but_reports (V1.compare_directories world a σ)
                           (V2.compare_directories world a σ)).
Proof.
  split_and!; [done | done | done |].
  intros a σ. apply compare_directories_sim.
Qed.

(** * Scenarios *)

(** A stand-in for the digest functions of [hashlib]: the message itself. *)
Definition plain_digest (hash_algorithm : string) (data : list Byte.byte) : list Byte.byte :=
  data.

Definition file_of (data : list Byte.byte) : Checksum.file_obj :=
  {| Checksum.pending := data; Checksum.short_reads := [] |}.

(** A server with the tree [{a.txt: "hi", c.txt: "y"}], whose files vanish
    before they are removed, and an operator who agrees. *)
Definition reachable_host : remote_host := {|
  connect_result := λ _ _, None;
  open_sftp_result := None;
  root_listing_error := None;
  root_entries := [RFile "a.txt" (inr (file_of [x68; x69]));
                   RFile "c.txt" (inr (file_of [x79]))];
  remove_result := λ _, Some (FileNotFoundError "No such file");
  sftp_close_result := None;
  operator_answer := inr "Tak"
|}.

(** A server that refuses the connection. *)
Definition unreachable_host : remote_host := {|
  connect_result := λ _ _, Some (OtherException "SSHException" "Unable to connect");
  open_sftp_result := None;
  root_listing_error := None;
  root_entries := [];
  remove_result := λ _, None;
  sftp_close_result := None;
  operator_answer := inr "nie"
|}.

(** A server with a directory that cannot be listed, after a file that can
    be read. *)
Definition unreadable_host : remote_host := {|
  connect_result := λ _ _, None;
  open_sftp_result := None;
  root_listing_error := None;
  root_entries := [RFile "a.txt" (inr (file_of [x68; x69]));
                   RDir "private" (Some (OtherException "PermissionError" "Permission denied")) []];
  remove_result := λ _, None;
  sftp_close_result := None;
  operator_answer := inr "tak"
|}.

(** The local tree [{a.txt: "hi", sub/b.txt: "x"}] and three servers. *)
Definition scenario_world : env := {|
  hash_digest := plain_digest;
  local_tree := λ _,
    [ {| le_rel_path := "a.txt"; le_is_file := true; le_open := inr (file_of [x68; x69]) |};
      {| le_rel_path := "sub"; le_is_file := false;
         le_open := inl (OtherException "IsADirectoryError" "sub") |};
      {| le_rel_path := "sub/b.txt"; le_is_file := true; le_open := inr (file_of [x78]) |} ];
  private_key_file := λ _, inl (FileNotFoundError "no key");
  host := λ server,
    if decide (server = "server2") then unreachable_host
    else if decide (server = "server3") then unreadable_host
    else reachable_host
|}.

Definition scenario_arguments : arguments := {|
  source_path := "/local";
  servers := ["server1"; "server2"; "server3"];
  remote_path := "/remote";
  username := "operator";
  key_path := None;
  password := Some "secret";
  auto_delete := true
|}.

Definition empty_store : store := {| dicts := ∅; clients := ∅ |}.

Definition scenario_sftp : sftp_client := {| sftp_ssh := 0; sftp_server := "server1" |}.

Definition scenario_run_v1 : result unit :=
  V1.compare_directories scenario_world scenario_arguments empty_store.

(** The run of v1 in the scenario: the first server is compared and, after
    the prompt, the file [c.txt] is found gone; the second reports a
    connection error; the third a scan error; every client is closed. *)
Example scenario_effects :
  outcome scenario_run_v1 = inr tt ∧
  effects (emitted scenario_run_v1) =
    [ EvRglob "/local"; EvOpenLocal "a.txt"; EvOpenLocal "sub/b.txt";
      EvConnect "server1" "operator" (Password (Some "secret")); EvOpenSftp "server1";
      EvListdir "server1" "/remote"; EvSftpOpen "server1" "/remote/a.txt";
      EvSftpOpen "server1" "/remote/c.txt"; EvInput 1 "server1";
      EvSftpRemove "server1" "/remote/c.txt"; EvSftpClose "server1"; EvSshClose "server1";
      EvConnect "server2" "operator" (Password (Some "secret")); EvSshClose "server2";
      EvConnect "server3" "operator" (Password (Some "secret")); EvOpenSftp "server3";
      EvListdir "server3" "/remote"; EvSftpOpen "server3" "/remote/a.txt";
      EvListdir "server3" "/remote/private"; EvSshClose "server3" ].
Proof. split; vm_compute; reflexivity. Qed.

(** The first scenario of the specification, for the differ. *)
Example scenario_diff :
  let source : gmap string file_record :=
    {[ "a.txt" := {| checksum := "6869"; full_path := None |};
       "sub/b.txt" := {| checksum := "78"; full_path := None |} ]} in
  let dest : gmap string file_record :=
    {[ "a.txt" := {| checksum := "6869"; full_path := Some "/remote/a.txt" |};
       "c.txt" := {| checksum := "79"; full_path := Some "/remote/c.txt" |} ]} in
  V2.compare_files source dest = ({[ "sub/b.txt" ]}, {[ "c.txt" ]}, ∅) ∧
  V2.unchanged_of source dest (V2.compare_files source dest).2 = {[ "a.txt" ]}.
Proof. intros source dest. split; vm_compute; reflexivity. Qed.

(** In the scenario, the removal on the first server comes after the prompt,
    with auto-delete on and the answer "Tak". *)
Lemma scenario_deletion_confirmed :
  auto_delete scenario_arguments = true ∧
  confirmed scenario_world "server1" ∧
  ∃ n, 0 < n ∧ EvInput n "server1" ∈ take 13 (emitted scenario_run_v1).
Proof.
  apply (deletion_only_after_confirmation scenario_world scenario_arguments empty_store
           (take 13 (emitted scenario_run_v1)) (drop 14 (emitted scenario_run_v1))
           "server1" "/remote/c.txt").
  left. vm_compute. reflexivity.
Defined.

(** The third scenario of the specification: [c.txt] is gone when it is to
    be removed; that is reported and [delete_remote_files] returns. *)
Lemma scenario_delete_not_found :
  V1.delete_remote_files scenario_world scenario_sftp {[ "c.txt" ]} "/remote" empty_store
    = Result (inr tt) empty_store
        (flat_map (V1_removal_trace scenario_world scenario_sftp "/remote")
                  (elements ({[ "c.txt" ]} : gset string))) ∧
  V2.delete_remote_files scenario_world scenario_sftp {[ "c.txt" ]} "/remote" empty_store
    = Result (inr tt) empty_store
        (flat_map (V2_removal_trace scenario_world scenario_sftp "/remote")
                  (elements ({[ "c.txt" ]} : gset string))).
Proof.
  apply delete_remote_files_total.
  intros file e _ H. vm_compute in H. injection H as <-. reflexivity.
Defined.

(** In the scenario, the third server fails in the scan, after one file was
    read: the iteration reports the error and the loop goes on. *)
Lemma scenario_scan_failure :
  (∃ t σ',
     Forall is_attempt_event t ∧
     let trace :=
       EvPrint (MsgComparing "server3") :: t ++
       [EvPrint (MsgConnError "server3" (OtherException "PermissionError" "Permission denied"));
        EvSshClose "server3"] in
     V1.loop_body scenario_world scenario_arguments 0 "server3" empty_store
     = Result (inr tt) σ' trace ∧
     for_each ("server3" :: ["server1"])
              (V1.loop_body scenario_world scenario_arguments 0) empty_store
     = after trace (for_each ["server1"]
                      (V1.loop_body scenario_world scenario_arguments 0) σ')).
Proof.
  refine (proj1 (failed_target_is_skipped scenario_world scenario_arguments 0
                   "server3" ["server1"]
                   (OtherException "PermissionError" "Permission denied")
                   empty_store _ _)).
  - vm_compute. reflexivity.
  - reflexivity.
Defined.

(** In the scenario, every session is released after the first target. *)
Lemma scenario_session_released :
  all_released
    (final (V1.loop_body scenario_world scenario_arguments 0 "server1" empty_store)).
Proof.
  assert (all_released empty_store) as H.
  { intros c s Hc. vm_compute in Hc. discriminate Hc. }
  exact (proj1 (proj1 (session_released_on_every_exit
                         scenario_world scenario_arguments 0 empty_store H)
                      "server1")).
Defined.

(** * Further properties *)

(** ** More on the differ *)

Section DifferAlgebra.
Implicit Types source dest : gmap string file_record.

Lemma unchanged_of_spec source dest file :
  file ∈ V2.unchanged_of source dest (V2.compare_files source dest).2 ↔
  ∃ s d, source !! file = Some s ∧ dest !! file = Some d ∧ checksum s = checksum d.
Proof.
  unfold V2.unchanged_of.
  rewrite elem_of_intersection, elem_of_difference, V2_modified_spec, !elem_of_dom.
  split.
  - intros ([s Hs] & [d Hd] & Hnot). exists s, d. split_and!; [done | done |].
    destruct (decide (checksum s = checksum d)) as [|Hne]; [done |].
    destruct Hnot. by exists s, d.
  - intros (s & d & Hs & Hd & Heq). split_and!; [by eexists | by eexists |].
    intros (s' & d' & Hs' & Hd' & Hne). congruence.
Qed.
End DifferAlgebra.

(** The four classes of v2 partition the paths of the two snapshots: every
    path of either snapshot is in exactly one of added, deleted, modified and
    unchanged; the local paths are the added, modified and unchanged ones, the
    remote paths the deleted, modified and unchanged ones. *)
Theorem diff_partitions_paths (source dest : gmap string file_record) :
  let '(added, deleted, modified) := V2.compare_files source dest in
  let unchanged := V2.unchanged_of source dest modified in
  added ∪ deleted ∪ modified ∪ unchanged = dom source ∪ dom dest ∧
  added ∪ modified ∪ unchanged = dom source ∧
  deleted ∪ modified ∪ unchanged = dom dest ∧
  added ∩ unchanged = ∅ ∧ deleted ∩ unchanged = ∅ ∧ modified ∩ unchanged = ∅ ∧
  added ∩ deleted = ∅ ∧ added ∩ modified = ∅ ∧ deleted ∩ modified = ∅.
Proof.
  destruct (modified_subseteq source dest) as [_ Hsub].
  destruct (V2.compare_files source dest) as [[added deleted] modified] eqn:E.
  assert (added = dom source ∖ dom dest) as -> by (by inversion E).
  assert (deleted = dom dest ∖ dom source) as -> by (by inversion E).
  simpl in Hsub. unfold V2.unchanged_of.
  assert (∀ k, k ∈ dom source → k ∈ dom dest →
               k ∈ modified ∨ k ∈ dom source ∩ (dom dest ∖ modified)) as Hcase.
  { intros k Hs Hd. destruct (decide (k ∈ modified)); [by left | right; set_solver]. }
  assert (∀ k, k ∈ dom source → k ∈ dom dest ∨ k ∉ dom dest) as Hdest.
  { intros k _. destruct (decide (k ∈ dom dest)); [by left | by right]. }
  assert (∀ k, k ∈ dom dest → k ∈ dom source ∨ k ∉ dom source) as Hsource.
  { intros k _. destruct (decide (k ∈ dom source)); [by left | by right]. }
  split_and!; set_solver.
Qed.

(** A path is unchanged for v2 exactly when both snapshots have it with the
    same checksum. *)
Theorem unchanged_iff_same_checksum (source dest : gmap string file_record)
    (file : string) :
  file ∈ V2.unchanged_of source dest (V2.compare_files source dest).2 ↔
  ∃ s d, source !! file = Some s ∧ dest !! file = Some d ∧ checksum s = checksum d.
Proof. apply unchanged_of_spec. Qed.

(** Comparing in the other direction swaps added and deleted and keeps
    modified, in v1 and in v2. *)
Theorem compare_files_swap (source dest : gmap string file_record) :
  (let '(added, deleted, modified) := V1.compare_files source dest in
   V1.compare_files dest source = (deleted, added, modified)) ∧
  (let '(added, deleted, modified) := V2.compare_files source dest in
   V2.compare_files dest source = (deleted, added, modified)).
Proof.
  assert (V1.compare_files dest source
          = ((V1.compare_files source dest).1.2, (V1.compare_files source dest).1.1,
             (V1.compare_files source dest).2)) as H.
  { pose proof (V1_modified_spec source dest) as Hm.
    pose proof (V1_modified_spec dest source) as Hm'.
    unfold V1.compare_files in *. simpl in *. f_equal.
    apply set_eq. intros k. rewrite Hm, Hm'. split.
    - intros (s & d & ? & ? & ?). exists d, s. split_and!; [done | done | congruence].
    - intros (s & d & ? & ? & ?). exists d, s. split_and!; [done | done | congruence]. }
  split.
  - by destruct (V1.compare_files source dest) as [[? ?] ?].
  - rewrite <- !compare_files_v1_v2.
    by destruct (V1.compare_files source dest) as [[? ?] ?].
Qed.

(** The differ looks at checksums only: two pairs of snapshots with the same
    paths and checksums, whatever their [full_path]s, get the same diff. *)
Theorem compare_files_checksums_only (source source' dest dest' : gmap string file_record) :
  checksum <$> source = checksum <$> source' →
  checksum <$> dest = checksum <$> dest' →
  V1.compare_files source dest = V1.compare_files source' dest' ∧
  V2.compare_files source dest = V2.compare_files source' dest'.
Proof.
  intros Hs Hd.
  assert (dom source = dom source') as Hds
    by (by rewrite <- (dom_fmap_L checksum source), Hs, dom_fmap_L).
  assert (dom dest = dom dest') as Hdd
    by (by rewrite <- (dom_fmap_L checksum dest), Hd, dom_fmap_L).
  assert (∀ k, checksum <$> source !! k = checksum <$> source' !! k) as Hks
    by (intros k; by rewrite <- !lookup_fmap, Hs).
  assert (∀ k, checksum <$> dest !! k = checksum <$> dest' !! k) as Hkd
    by (intros k; by rewrite <- !lookup_fmap, Hd).
  assert (V1.compare_files source dest = V1.compare_files source' dest') as H.
  { unfold V1.compare_files. cbv zeta. rewrite Hds, Hdd. f_equal.
    apply set_eq. intros k. rewrite !elem_of_filter, Hks, Hkd. done. }
  split; [done |]. by rewrite <- !compare_files_v1_v2.
Qed.

(** With nothing on one side, everything on the other side is deleted, or
    added: against an empty local snapshot every remote path is in the
    deleted set. *)
Theorem compare_files_empty_side (S : gmap string file_record) :
  V1.compare_files ∅ S = (∅, dom S, ∅) ∧ V1.compare_files S ∅ = (dom S, ∅, ∅) ∧
  V2.compare_files ∅ S = (∅, dom S, ∅) ∧ V2.compare_files S ∅ = (dom S, ∅, ∅).
Proof.
  assert (V1.compare_files ∅ S = (∅, dom S, ∅) ∧ V1.compare_files S ∅ = (dom S, ∅, ∅))
    as [H1 H2].
  { pose proof (modified_subseteq ∅ S) as [Ha _].
    pose proof (modified_subseteq S ∅) as [Hb _].
    unfold V1.compare_files in *. simpl in *. rewrite dom_empty_L in *.
    split; (f_equal; [f_equal |]); set_solver. }
  split_and!; [done | done | |]; by rewrite <- compare_files_v1_v2.
Qed.

(** ** More on the remediator *)

(** The paths that a trace removes, in order. *)
Definition removed_paths (t : list event) : list string :=
  omap (λ ev, match ev with EvSftpRemove _ path => Some path | _ => None end) t.

(** What [delete_remote_files] is to remove: [remote_base_path/file] for the
    files of the set, in the order of the iteration. *)
Definition removal_targets (remote_base_path : string) (files : list string) : list string :=
  (λ file, remote_base_path +:+ "/" +:+ file) <$> files.

(** What a run of the remediator over [files] may do, whatever the answers
    of [sftp.remove]: the heap is as before; the removals are on the server of
    the SFTP client, for an initial segment of the targets, each once; they
    are all the targets when the run returns; and an exception that escapes is
    no [Exception] and is the answer to the removal of one of the files. *)
Definition careful_removal (world : env) (sftp : sftp_client) (remote_base_path : string)
    (files : list string) (σ : store) (r : result unit) : Prop :=
  final r = σ ∧
  Forall (is_removal_event (sftp_server sftp)) (emitted r) ∧
  removed_paths (emitted r) `prefix_of` removal_targets remote_base_path files ∧
  (outcome r = inr tt →
   removed_paths (emitted r) = removal_targets remote_base_path files) ∧
  (∀ e, outcome r = inl e →
        is_Exception e = false ∧
        ∃ file, file ∈ files ∧
          remove_result (host world (sftp_server sftp))
                        (remote_base_path +:+ "/" +:+ file) = Some e).

Section RemovalPaths.
Context (world : env) (sftp : sftp_client) (remote_base_path : string).

Lemma removed_paths_app t t' : removed_paths (t ++ t') = removed_paths t ++ removed_paths t'.
Proof. apply omap_app. Qed.

(** The loop of the remediator, for a body that calls [sftp.remove] once,
    reports the answer, and lets only what is no [Exception] escape. *)
Lemma careful_loop (body : string → M unit) (report : string → list event) files σ :
  (∀ file σ',
     body file σ' =
     Result (match remove_result (host world (sftp_server sftp))
                                 (remote_base_path +:+ "/" +:+ file) with
             | Some e => if is_Exception e then inr tt else inl e
             | None => inr tt
             end)
            σ'
            (EvSftpRemove (sftp_server sftp) (remote_base_path +:+ "/" +:+ file)
             :: report file)) →
  (∀ file, removed_paths (report file) = [] ∧
           Forall (is_removal_event (sftp_server sftp)) (report file)) →
  careful_removal world sftp remote_base_path files σ (for_each files body σ).
Proof.
  intros Hbody Hreport. unfold careful_removal.
  induction files as [|file files IH].
  - simpl. split_and!; [done | done | done | done | done].
  - rewrite for_each_cons, bind_run, Hbody. simpl.
    destruct (Hreport file) as [Hnone Hrep].
    destruct IH as (IH1 & IHev & IH2 & IH3 & IH4).
    destruct (remove_result _ _) as [e|] eqn:E; [destruct (is_Exception e) eqn:He |];
      simpl; rewrite ?removed_paths_app, ?Hnone; simpl.
    + split_and!; [done | | by apply prefix_cons | by intros ->%IH3 |].
      * constructor; [done |]. by apply Forall_app.
      * intros e' [He' (f & Hf & Hrm)]%IH4. split; [done |]. exists f.
        split; [by right | done].
    + split_and!; [done | | apply prefix_cons, prefix_nil | done |].
      * by constructor.
      * intros e' [= <-]. split; [done |]. exists file. split; [by left | done].
    + split_and!; [done | | by apply prefix_cons | by intros ->%IH3 |].
      * constructor; [done |]. by apply Forall_app.
      * intros e' [He' (f & Hf & Hrm)]%IH4. split; [done |]. exists f.
        split; [by right | done].
Qed.

Lemma V1_delete_step file σ :
  try_except
    (sftp_remove world sftp (remote_base_path +:+ "/" +:+ file) ;;
     print (MsgRemoved (remote_base_path +:+ "/" +:+ file)))
    (λ e, match e with
          | FileNotFoundError _ =>
              Some (print (MsgNotFound (remote_base_path +:+ "/" +:+ file)))
          | _ => if is_Exception e
                 then Some (print (MsgRemoveError (remote_base_path +:+ "/" +:+ file) e))
                 else None
          end) σ
  = Result (match remove_result (host world (sftp_server sftp))
                                (remote_base_path +:+ "/" +:+ file) with
            | Some e => if is_Exception e then inr tt else inl e
            | None => inr tt
            end)
           σ
           (EvSftpRemove (sftp_server sftp) (remote_base_path +:+ "/" +:+ file)
            :: match remove_result (host world (sftp_server sftp))
                                   (remote_base_path +:+ "/" +:+ file) with
               | Some KeyboardInterrupt => []
               | answer =>
                   [EvPrint (removal_message (remote_base_path +:+ "/" +:+ file) answer)]
               end).
Proof.
  unfold try_except, sftp_remove. rewrite !bind_run. simpl.
  destruct (remove_result _ _) as [[msg | cls msg |]|]; reflexivity.
Qed.

Lemma V2_delete_step file σ :
  try_except
    (sftp_remove world sftp (remote_base_path +:+ "/" +:+ file) ;;
     log_colored (MsgRemoved (remote_base_path +:+ "/" +:+ file)) RED)
    (λ e, match e with
          | FileNotFoundError _ =>
              Some (log_colored (MsgNotFound (remote_base_path +:+ "/" +:+ file)) RED)
          | _ => if is_Exception e
                 then Some (log_colored
                              (MsgRemoveError (remote_base_path +:+ "/" +:+ file) e) RED)
                 else None
          end) σ
  = Result (match remove_result (host world (sftp_server sftp))
                                (remote_base_path +:+ "/" +:+ file) with
            | Some e => if is_Exception e then inr tt else inl e
            | None => inr tt
            end)
           σ
           (EvSftpRemove (sftp_server sftp) (remote_base_path +:+ "/" +:+ file)
            :: match remove_result (host world (sftp_server sftp))
                                   (remote_base_path +:+ "/" +:+ file) with
               | Some KeyboardInterrupt => []
               | answer =>
                   [EvLog RED (removal_message (remote_base_path +:+ "/" +:+ file) answer)]
               end).
Proof.
  unfold try_except, sftp_remove. rewrite !bind_run. simpl.
  destruct (remove_result _ _) as [[msg | cls msg |]|]; reflexivity.
Qed.
End RemovalPaths.

(** Whatever [sftp.remove] answers, [delete_remote_files] (of v1 and of v2)
    leaves the heap as it was and removes only on the server of its SFTP
    client, only paths [remote_base_path/file] for files of the set, each at
    most once and in the order of the iteration: an initial segment of them,
    all of them when it returns.  An exception escapes only when it is no
    [Exception] and was raised by the removal of one of the files. *)
Theorem delete_remote_files_careful
    (world : env) (sftp : sftp_client) (files_to_delete : gset string)
    (remote_base_path : string) (σ : store) :
  careful_removal world sftp remote_base_path (elements files_to_delete) σ
    (V1.delete_remote_files world sftp files_to_delete remote_base_path σ) ∧
  careful_removal world sftp remote_base_path (elements files_to_delete) σ
    (V2.delete_remote_files world sftp files_to_delete remote_base_path σ).
Proof.
  split.
  - eapply careful_loop.
    + intros file σ'. apply V1_delete_step.
    + intros file. cbv beta.
      destruct (remove_result (host world (sftp_server sftp))
                              (remote_base_path +:+ "/" +:+ file))
        as [[msg | cls msg |]|]; split; try done; by repeat constructor.
  - eapply careful_loop.
    + intros file σ'. apply V2_delete_step.
    + intros file. cbv beta.
      destruct (remove_result (host world (sftp_server sftp))
                              (remote_base_path +:+ "/" +:+ file))
        as [[msg | cls msg |]|]; split; try done; by repeat constructor.
Qed.

(** When the removal of a file raises what is no [Exception] (the operator
    interrupts), after files whose removals raise nothing else than
    [Exception]s, [delete_remote_files] (of v1 and of v2) stops there: the
    exception escapes, the failed removal is not reported, and the files after
    it in the iteration are not removed. *)
Theorem delete_remote_files_interrupted
    (world : env) (sftp : sftp_client) (files_to_delete : gset string)
    (remote_base_path : string) (σ : store)
    (before after_it : list string) (file : string) (e : exn) :
  elements files_to_delete = before ++ file :: after_it →
  removals_fail_softly world sftp remote_base_path before →
  remove_result (host world (sftp_server sftp)) (remote_base_path +:+ "/" +:+ file)
    = Some e →
  is_Exception e = false →
  V1.delete_remote_files world sftp files_to_delete remote_base_path σ
    = Result (inl e) σ
        (flat_map (V1_removal_trace world sftp remote_base_path) before ++
         [EvSftpRemove (sftp_server sftp) (remote_base_path +:+ "/" +:+ file)]) ∧
  V2.delete_remote_files world sftp files_to_delete remote_base_path σ
    = Result (inl e) σ
        (flat_map (V2_removal_trace world sftp remote_base_path) before ++
         [EvSftpRemove (sftp_server sftp) (remote_base_path +:+ "/" +:+ file)]).
Proof.
  intros Hfiles Hsoft Hanswer Hhard. split.
  - unfold V1.delete_remote_files. rewrite Hfiles, for_each_app, bind_run.
    rewrite V1_delete_loop by done. simpl.
    rewrite bind_run. cbv zeta. rewrite V1_delete_step, Hanswer, Hhard. simpl.
    by destruct e.
  - unfold V2.delete_remote_files. rewrite Hfiles, for_each_app, bind_run.
    rewrite V2_delete_loop by done. simpl.
    rewrite bind_run. cbv zeta. rewrite V2_delete_step, Hanswer, Hhard. simpl.
    by destruct e.
Qed.

(** ** The local scanner *)

(** The error of opening an entry of the walk: directories are not opened. *)
Definition local_open_error (entry : local_entry) : option exn :=
  if le_is_file entry then
    match le_open entry with inl e => Some e | inr _ => None end
  else None.

(** The record of an entry: for a regular file that can be read, its
    relative path with the digest of its contents. *)
Definition local_record (world : env) (entry : local_entry) : option (string * file_record) :=
  if le_is_file entry then
    match le_open entry with
    | inr f => Some (le_rel_path entry,
                     {| checksum := content_digest world "sha256" (Checksum.pending f);
                        full_path := None |})
    | inl _ => None
    end
  else None.

Definition local_records (world : env) (entries : list local_entry)
    : list (string * file_record) :=
  omap (local_record world) entries.

(** The dict that holds the records of a list: of two records with the same
    path the later one stays. *)
Definition snapshot_of (records : list (string * file_record)) : gmap string file_record :=
  list_to_map (reverse records).

(** The relative paths of the regular files of a walk. *)
Definition regular_files (entries : list local_entry) : list string :=
  le_rel_path <$> filter (λ entry, le_is_file entry = true) entries.

Section Filling.

(** Setting the records one after the other. *)
Definition fill (acc : gmap string file_record) (records : list (string * file_record))
    : gmap string file_record :=
  foldl (λ m kv, <[kv.1 := kv.2]> m) acc records.

Lemma fill_snapshot acc records : fill acc records = snapshot_of records ∪ acc.
Proof.
  unfold fill, snapshot_of. revert acc.
  induction records as [|[k v] records IH]; intros acc; simpl.
  - by rewrite (left_id_L ∅ (∪)).
  - rewrite IH, reverse_cons, list_to_map_app. simpl.
    rewrite <- (assoc_L (∪)). f_equal.
    by rewrite insert_empty, <- insert_union_singleton_l.
Qed.

Lemma fill_app acc records records' :
  fill acc (records ++ records') = fill (fill acc records) records'.
Proof. apply foldl_app. Qed.

Lemma snapshot_of_dom records : dom (snapshot_of records) = list_to_set records.*1.
Proof.
  unfold snapshot_of. rewrite dom_list_to_map_L, fmap_reverse.
  apply set_eq. intros k. by rewrite !elem_of_list_to_set, elem_of_reverse.
Qed.

Lemma snapshot_of_lookup records k v :
  NoDup records.*1 → (k, v) ∈ records → snapshot_of records !! k = Some v.
Proof.
  intros Hnd Hin. unfold snapshot_of. apply elem_of_list_to_map_1.
  - by rewrite fmap_reverse, reverse_Permutation.
  - by apply elem_of_reverse.
Qed.

Lemma snapshot_of_elem records k v :
  snapshot_of records !! k = Some v → (k, v) ∈ records.
Proof.
  unfold snapshot_of. intros H. apply elem_of_list_to_map_2 in H.
  by apply elem_of_reverse.
Qed.

(** Setting a key of the dict at [files], as a change of the heap. *)
Lemma setitem_store files acc k v σ :
  dicts σ !! files = Some acc →
  final (dict_setitem files k v σ)
  = {| dicts := <[files := <[k := v]> acc]> (dicts σ); clients := clients σ |}.
Proof.
  intros H. simpl. f_equal. apply map_eq. intros i.
  destruct (decide (i = files)) as [->|Hne].
  - by rewrite lookup_alter_eq, lookup_insert_eq, H.
  - by rewrite lookup_alter_ne, lookup_insert_ne.
Qed.
End Filling.

Section LocalScanner.
Context (world : env).

Lemma local_records_paths entries :
  first_some local_open_error entries = None →
  (local_records world entries).*1 = regular_files entries.
Proof.
  unfold local_records, regular_files.
  induction entries as [|entry entries IH]; intros H; [done |].
  simpl in H. rewrite filter_cons. unfold local_open_error in H.
  simpl. unfold local_record at 1.
  destruct (decide (le_is_file entry = true)) as [Hfile|Hfile].
  - rewrite Hfile in *. destruct (le_open entry) as [e|f]; [done |].
    simpl. f_equal. by apply IH.
  - apply not_true_is_false in Hfile. rewrite Hfile in *. by apply IH.
Qed.

(** The loop of [get_local_files], from a heap where the dict [files] holds
    [acc]: when every regular file can be read, the dict is filled with the
    records and every regular file was opened, in the order of the walk. *)
Lemma V1_local_loop files entries acc σ :
  dicts σ !! files = Some acc →
  first_some local_open_error entries = None →
  for_each entries (λ path,
    if le_is_file path then
      let rel_path := le_rel_path path in
      let* c := V1.calculate_local_checksum world path "sha256" in
      dict_setitem files rel_path {| checksum := c; full_path := None |}
    else ret tt) σ
  = Result (inr tt)
           {| dicts := <[files := fill acc (local_records world entries)]> (dicts σ);
              clients := clients σ |}
           (EvOpenLocal <$> regular_files entries).
Proof.
  intros Hacc Hok.
  match goal with |- for_each _ ?b _ = _ => set (body := b) end.
  assert (∀ entry σ',
    body entry σ' =
    if le_is_file entry then
      match le_open entry with
      | inl e => Result (inl e) σ' [EvOpenLocal (le_rel_path entry)]
      | inr f =>
          Result (inr tt)
            (final (dict_setitem files (le_rel_path entry)
                      {| checksum := content_digest world "sha256" (Checksum.pending f);
                         full_path := None |} σ'))
            [EvOpenLocal (le_rel_path entry)]
      end
    else Result (inr tt) σ' []) as Hstep.
  { intros entry σ'. subst body. cbv beta.
    destruct (le_is_file entry); [| done].
    unfold V1.calculate_local_checksum. rewrite !bind_run. simpl.
    destruct (le_open entry) as [e|f]; [done |]. simpl.
    by rewrite V1_local_digest. }
  clearbody body.
  revert acc σ Hacc Hok. induction entries as [|entry entries IH]; intros acc σ Hacc Hok.
  - simpl. unfold fill. simpl. rewrite insert_id by done. by destruct σ.
  - rewrite for_each_cons, bind_run, Hstep.
    simpl in Hok. unfold local_open_error in Hok.
    unfold local_records, regular_files in *.
    rewrite filter_cons.
    cbn [omap list_omap]. unfold local_record at 1.
    destruct (decide (le_is_file entry = true)) as [Hfile|Hfile].
    + rewrite Hfile in *. destruct (le_open entry) as [e|f] eqn:Hopen; [done |].
      cbn [outcome final emitted].
      rewrite (setitem_store files acc) by done.
      rewrite (IH (<[le_rel_path entry :=
                      {| checksum := content_digest world "sha256" (Checksum.pending f);
                         full_path := None |}]> acc));
        [| by simpl; rewrite lookup_insert_eq | done].
      cbn [outcome final emitted dicts clients]. f_equal.
      f_equal. by rewrite insert_insert_eq.
    + apply not_true_is_false in Hfile. rewrite Hfile in *.
      cbn [outcome final emitted]. by rewrite (IH acc σ).
Qed.
End LocalScanner.

Lemma V1_get_local_files_result (world : env) (base_path : string) (σ : store) :
  first_some local_open_error (local_tree world base_path) = None →
  V1.get_local_files world base_path σ
  = Result (inr (fresh (dom (dicts σ))))
      {| dicts := <[fresh (dom (dicts σ)) :=
                      snapshot_of (local_records world (local_tree world base_path))]>
                    (dicts σ);
         clients := clients σ |}
      (EvRglob base_path :: (EvOpenLocal <$> regular_files (local_tree world base_path))).
Proof.
  intros Hok.
  unfold V1.get_local_files. rewrite bind_run. cbn [dict_new outcome final emitted].
  rewrite bind_run. cbn [emit outcome final emitted].
  rewrite bind_run.
  rewrite (V1_local_loop world (fresh (dom (dicts σ))) _ ∅);
    [| by simpl; rewrite lookup_insert_eq | done].
  cbn [outcome final emitted ret dicts clients]. f_equal.
  - by rewrite insert_insert_eq, fill_snapshot, (right_id_L ∅ (∪)).
  - simpl. by rewrite app_nil_r.
Qed.

(** When every regular file of the walk can be read, [get_local_files] (of
    v1 and of v2) returns a new dict that holds, for every regular file, its
    relative path with the digest of its contents (of two files with the same
    relative path the later one of the walk); it opens the regular files and
    nothing else, in the order of the walk, and changes nothing else in the
    heap. *)
Theorem get_local_files_snapshot (world : env) (base_path : string) (σ : store) :
  first_some local_open_error (local_tree world base_path) = None →
  let files := fresh (dom (dicts σ)) in
  let expected :=
    Result (inr files)
      {| dicts := <[files := snapshot_of (local_records world (local_tree world base_path))]>
                    (dicts σ);
         clients := clients σ |}
      (EvRglob base_path :: (EvOpenLocal <$> regular_files (local_tree world base_path))) in
  V1.get_local_files world base_path σ = expected ∧
  V2.get_local_files world base_path σ = expected.
Proof.
  intros Hok files expected.
  pose proof (V1_get_local_files_result world base_path σ Hok) as H.
  split; [exact H |]. rewrite <- (get_local_files_v1_v2 world base_path). exact H.
Qed.

Lemma bind_raises {A B} (m : M A) (k : A → M B) σ e :
  outcome (m σ) = inl e → bind m k σ = Result (inl e) (final (m σ)) (emitted (m σ)).
Proof. intros H. by rewrite bind_run, H. Qed.

Lemma V1_get_local_files_outcome world base_path σ :
  outcome (V1.get_local_files world base_path σ)
  = match first_some local_open_error (local_tree world base_path) with
    | Some e => inl e
    | None => inr (fresh (dom (dicts σ)))
    end.
Proof.
  unfold V1.get_local_files. rewrite bind_run. cbn [dict_new outcome final emitted].
  rewrite bind_run. cbn [emit outcome final emitted]. rewrite bind_run.
  match goal with |- context [for_each ?xs ?body ?s] =>
    rewrite (for_each_outcome local_open_error xs body)
  end.
  - by destruct (first_some _ _).
  - intros entry σ' _. unfold local_open_error, V1.calculate_local_checksum.
    destruct (le_is_file entry); [| done].
    rewrite !bind_run. simpl. by destruct (le_open entry).
Qed.

Lemma V1_local_snapshot_records (world : env) (base_path : string) (σ : store)
    (files : nat) :
  outcome (V1.get_local_files world base_path σ) = inr files →
  let S := default ∅ (dicts (final (V1.get_local_files world base_path σ)) !! files) in
  let entries := local_tree world base_path in
  dom S = list_to_set (regular_files entries) ∧
  (NoDup (regular_files entries) →
   ∀ entry f, entry ∈ entries → le_is_file entry = true → le_open entry = inr f →
     S !! le_rel_path entry
     = Some {| checksum := content_digest world "sha256" (Checksum.pending f);
               full_path := None |}).
Proof.
  intros Hout S entries.
  pose proof (V1_get_local_files_outcome world base_path σ) as Hscan.
  destruct (first_some local_open_error (local_tree world base_path)) as [e|] eqn:Hok;
    [by rewrite Hscan in Hout |].
  subst S. rewrite (V1_get_local_files_result world base_path σ Hok) in *.
  cbn [outcome final] in *. injection Hout as <-. cbn [dicts].
  rewrite lookup_insert_eq. cbn [default from_option id]. fold entries. split.
  - by rewrite snapshot_of_dom, local_records_paths.
  - intros Hnd entry f Hin Hfile Hopen. apply snapshot_of_lookup.
    + by rewrite local_records_paths.
    + unfold local_records. apply list_elem_of_omap. exists entry. split; [done |].
      unfold local_record. by rewrite Hfile, Hopen.
Qed.

(** The paths of the dict that [get_local_files] (of v1 and of v2) returns
    are the relative paths of the regular files of the walk, and when those
    are pairwise distinct the record of every regular file has the digest of
    the contents of that file. *)
Theorem local_snapshot_records
    (world : env) (base_path : string) (σ : store) (files : nat) :
  outcome (V1.get_local_files world base_path σ) = inr files ∨
  outcome (V2.get_local_files world base_path σ) = inr files →
  let S := default ∅ (dicts (final (V1.get_local_files world base_path σ)) !! files) in
  let S' := default ∅ (dicts (final (V2.get_local_files world base_path σ)) !! files) in
  let entries := local_tree world base_path in
  S' = S ∧
  dom S = list_to_set (regular_files entries) ∧
  (NoDup (regular_files entries) →
   ∀ entry f, entry ∈ entries → le_is_file entry = true → le_open entry = inr f →
     S !! le_rel_path entry
     = Some {| checksum := content_digest world "sha256" (Checksum.pending f);
               full_path := None |}).
Proof.
  intros Hout S S' entries. split; [reflexivity |].
  apply V1_local_snapshot_records. by destruct Hout.
Qed.

(** When a regular file of the walk cannot be read, [get_local_files] raises
    the error of the first such file, and so does [compare_directories] (of
    v1 and of v2), after the effects of the local scan only: no server is
    contacted. *)
Theorem unreadable_local_file_stops_run
    (world : env) (a : arguments) (σ : store) (e : exn) :
  first_some local_open_error (local_tree world (source_path a)) = Some e →
  (outcome (V1.get_local_files world (source_path a) σ) = inl e ∧
   outcome (V1.compare_directories world a σ) = inl e ∧
   Forall is_local_scan_event (emitted (V1.compare_directories world a σ))) ∧
  (outcome (V2.get_local_files world (source_path a) σ) = inl e ∧
   outcome (V2.compare_directories world a σ) = inl e ∧
   Forall is_local_scan_event (emitted (V2.compare_directories world a σ))).
Proof.
  intros Herr.
  assert (outcome (V1.get_local_files world (source_path a) σ) = inl e) as Ho
    by (by rewrite V1_get_local_files_outcome, Herr).
  assert (Forall is_local_scan_event
            (emitted (V1.get_local_files world (source_path a) σ))) as Hev.
  { destruct (V1_get_local_files_run world (source_path a) σ) as [(t & Ht & Hopen) _].
    rewrite Ht. constructor; [done |].
    eapply Forall_impl; [exact Hopen |]. by intros []. }
  split.
  - unfold V1.compare_directories. by rewrite (bind_raises _ _ _ e Ho).
  - unfold V2.compare_directories. rewrite <- get_local_files_v1_v2.
    by rewrite (bind_raises _ _ _ e Ho).
Qed.

(** ** The remote scanner, when it returns *)

(** The records of an entry of the remote tree, in the order of the scan:
    for a file that can be read, its relative path with the digest of its
    contents and its full path; for a directory, the records of its
    entries. *)
Fixpoint entry_records (world : env) (path relative_root : string) (entry : remote_entry)
    : list (string * file_record) :=
  match entry with
  | RFile filename (inr f) =>
      [(joinpath relative_root filename,
        {| checksum := content_digest world "sha256" (Checksum.pending f);
           full_path := Some (path +:+ "/" +:+ filename) |})]
  | RFile filename (inl _) => []
  | RDir filename _ entries =>
      flat_map (entry_records world (path +:+ "/" +:+ filename)
                              (joinpath relative_root filename)) entries
  end.

Definition remote_records (world : env) (base_path : string) (h : remote_host)
    : list (string * file_record) :=
  flat_map (entry_records world base_path ".") (root_entries h).

Section RemoteScanner.
Context (world : env) (sftp : sftp_client) (files : nat).

Lemma string_app_assoc (s t u : string) : (s +:+ t) +:+ u = s +:+ t +:+ u.
Proof.
  induction s as [|c s IH]; [done |].
  change (String c ((s +:+ t) +:+ u) = String c (s +:+ t +:+ u)). by f_equal.
Qed.

Lemma first_some_none {A} (f : A → option exn) xs x :
  first_some f xs = None → x ∈ xs → f x = None.
Proof.
  induction xs as [|y xs IH]; intros H Hx; [by apply not_elem_of_nil in Hx |].
  simpl in H. destruct (f y) eqn:E; [done |].
  apply elem_of_cons in Hx as [-> | Hx]; [done | by apply IH].
Qed.

(** A store whose dict [files] holds the given contents and that is
    otherwise [σ]. *)
Definition with_dict (σ : store) (contents : gmap string file_record) : store :=
  {| dicts := <[files := contents]> (dicts σ); clients := clients σ |}.

(** A loop whose body fills the dict [files] with the records of each
    element fills it with the records of all of them. *)
Lemma for_each_fill {A} (recs : A → list (string * file_record)) (xs : list A) body :
  (∀ x acc σ, x ∈ xs → dicts σ !! files = Some acc →
     outcome (body x σ) = inr tt ∧
     final (body x σ) = with_dict σ (fill acc (recs x))) →
  ∀ acc σ, dicts σ !! files = Some acc →
    outcome (for_each xs body σ) = inr tt ∧
    final (for_each xs body σ) = with_dict σ (fill acc (flat_map recs xs)).
Proof.
  induction xs as [|x xs IH]; intros Hbody acc σ Hacc.
  - simpl. split; [done |]. unfold with_dict, fill. simpl.
    rewrite insert_id by done. by destruct σ.
  - rewrite for_each_cons, bind_run.
    destruct (Hbody x acc σ) as [Ho Hf]; [by left | done |].
    rewrite Ho, Hf. cbn [outcome final].
    destruct (IH) with (acc := fill acc (recs x)) (σ := with_dict σ (fill acc (recs x)))
      as [Ho' Hf'].
    { intros y acc' σ' Hy. apply Hbody. by right. }
    { unfold with_dict. simpl. by rewrite lookup_insert_eq. }
    split; [done |]. rewrite Hf'. simpl. rewrite fill_app.
    unfold with_dict. simpl. by rewrite insert_insert_eq.
Qed.

Lemma V1_visit_fills entry path relative_root acc σ :
  entry_error entry = None →
  dicts σ !! files = Some acc →
  outcome (V1.visit world sftp files path relative_root entry σ) = inr tt ∧
  final (V1.visit world sftp files path relative_root entry σ)
  = with_dict σ (fill acc (entry_records world path relative_root entry)).
Proof.
  revert path relative_root acc σ.
  induction entry as [filename contents | filename err entries IH]
    using remote_entry_nested_ind; intros path relative_root acc σ Hok Hacc.
  - simpl in *. destruct contents as [e|f]; [done |].
    unfold V1.calculate_remote_checksum, sftp_open_rb. rewrite !bind_run.
    cbn [emit answer_val ret outcome final emitted].
    rewrite V1_remote_digest by done. split; [done |].
    by rewrite (setitem_store files acc).
  - simpl in Hok. destruct err as [e|]; [done |].
    cbn [V1.visit entry_records]. unfold listdir_attr. rewrite !bind_run.
    cbn [emit answer ret outcome final emitted].
    apply for_each_fill; [| done].
    intros x acc' σ' Hx Hacc'. rewrite Forall_forall in IH.
    apply IH; [done | | done]. by eapply first_some_none.
Qed.

End RemoteScanner.

Lemma V1_get_remote_files_fills world sftp base_path σ :
  scan_error (host world (sftp_server sftp)) = None →
  let d := fresh (dom (dicts σ)) in
  outcome (V1.get_remote_files world sftp base_path σ) = inr d ∧
  final (V1.get_remote_files world sftp base_path σ)
  = {| dicts := <[d := snapshot_of
                         (remote_records world base_path (host world (sftp_server sftp)))]>
                  (dicts σ);
       clients := clients σ |}.
Proof.
  intros Hok d. unfold scan_error in Hok.
  destruct (root_listing_error _) as [e|] eqn:Hroot; [done |].
  unfold V1.get_remote_files, V1.recursive_list, listdir_attr. cbv zeta.
  rewrite bind_run. cbn [dict_new outcome final emitted].
  rewrite bind_run. rewrite (bind_run (bind _ _)). rewrite (bind_run (emit _)).
  cbn [emit outcome final emitted]. rewrite Hroot.
  cbn [answer ret outcome final emitted]. fold d.
  destruct (for_each_fill d (entry_records world base_path ".")
              (root_entries (host world (sftp_server sftp)))
              (V1.visit world sftp d base_path "."))
    with (acc := (∅ : gmap string file_record))
         (σ := {| dicts := <[d := ∅]> (dicts σ); clients := clients σ |})
    as [Ho Hf].
  - intros x acc σ' Hx Hacc. apply V1_visit_fills; [by eapply first_some_none | done].
  - simpl. by rewrite lookup_insert_eq.
  - rewrite Ho, Hf. cbn [outcome final]. split; [done |].
    unfold with_dict, remote_records. simpl.
    by rewrite insert_insert_eq, fill_snapshot, (right_id_L ∅ (∪)).
Qed.

(** When the root can be listed, every directory of the tree can be listed
    and every file can be opened, [get_remote_files] (of v1 and of v2)
    returns a new dict that holds, for every file of the tree, its path
    relative to the base with the digest of its contents and its full path
    (of two files with the same relative path the later one of the scan), and
    it changes nothing else in the heap. *)
Theorem get_remote_files_snapshot
    (world : env) (sftp : sftp_client) (base_path : string) (σ : store) :
  scan_error (host world (sftp_server sftp)) = None →
  let files := fresh (dom (dicts σ)) in
  let σ' :=
    {| dicts := <[files := snapshot_of
                             (remote_records world base_path (host world (sftp_server sftp)))]>
                  (dicts σ);
       clients := clients σ |} in
  (outcome (V1.get_remote_files world sftp base_path σ) = inr files ∧
   final (V1.get_remote_files world sftp base_path σ) = σ') ∧
  (outcome (V2.get_remote_files world sftp base_path σ) = inr files ∧
   final (V2.get_remote_files world sftp base_path σ) = σ').
Proof.
  intros Hok files σ'.
  pose proof (V1_get_remote_files_fills world sftp base_path σ Hok) as H.
  split; [exact H |]. rewrite <- get_remote_files_v1_v2. exact H.
Qed.

(** ** Relative paths and full paths on the server *)

Fixpoint has_slash (s : string) : bool :=
  match s with
  | EmptyString => false
  | String c s' => Ascii.eqb c "/" || has_slash s'
  end.

(** A name that is one component of a path, as a server lists them: not
    empty, not [.] and without a slash. *)
Definition plain_name (s : string) : bool :=
  negb (String.eqb s "") && negb (String.eqb s ".") && negb (has_slash s).

Fixpoint plain_names (entry : remote_entry) : bool :=
  match entry with
  | RFile filename _ => plain_name filename
  | RDir filename _ entries => plain_name filename && forallb plain_names entries
  end.

Definition plain_listing (h : remote_host) : bool := forallb plain_names (root_entries h).

(** The directory [path] is the one at [relative_root] under [base]. *)
Definition linked (base path relative_root : string) : Prop :=
  path = if decide (relative_root = ".") then base else base +:+ "/" +:+ relative_root.

Lemma joined_not_dot (relative_root filename : string) :
  relative_root +:+ "/" +:+ filename ≠ ".".
Proof.
  destruct relative_root as [|c [|c' s]]; intros H; vm_compute in H; discriminate H.
Qed.

Lemma plain_name_not_dot filename : plain_name filename = true → filename ≠ ".".
Proof.
  unfold plain_name. intros H ->. by vm_compute in H.
Qed.

Lemma linked_joinpath base path relative_root filename :
  linked base path relative_root → filename ≠ "." →
  path +:+ "/" +:+ filename = base +:+ "/" +:+ joinpath relative_root filename ∧
  linked base (path +:+ "/" +:+ filename) (joinpath relative_root filename).
Proof.
  unfold linked, joinpath. intros -> Hname.
  destruct (decide (relative_root = ".")) as [->|Hrel].
  - split; [done |]. by rewrite decide_False.
  - rewrite string_app_assoc. split; [done |].
    rewrite decide_False; [done |]. apply joined_not_dot.
Qed.

Lemma entry_records_full_paths world base entry :
  ∀ path relative_root key record,
    plain_names entry = true →
    linked base path relative_root →
    (key, record) ∈ entry_records world path relative_root entry →
    full_path record = Some (base +:+ "/" +:+ key).
Proof.
  induction entry as [filename contents | filename err entries IH]
    using remote_entry_nested_ind; intros path relative_root key record Hplain Hlink Hin.
  - simpl in *. destruct contents as [e|f]; [by apply not_elem_of_nil in Hin |].
    apply list_elem_of_singleton in Hin. injection Hin as -> ->. simpl.
    f_equal. by apply linked_joinpath, plain_name_not_dot.
  - simpl in *. apply andb_true_iff in Hplain as [Hname Hentries].
    apply list_elem_of_In, in_flat_map in Hin as (entry & Hentry & Hin).
    rewrite Forall_forall in IH.
    apply (IH entry) with (path := path +:+ "/" +:+ filename)
                          (relative_root := joinpath relative_root filename).
    + by apply list_elem_of_In.
    + rewrite forallb_forall in Hentries. by apply Hentries.
    + by apply linked_joinpath, plain_name_not_dot.
    + by apply list_elem_of_In.
Qed.

Lemma V1_remote_snapshot_full_paths world sftp base_path σ files key record :
  plain_listing (host world (sftp_server sftp)) = true →
  outcome (V1.get_remote_files world sftp base_path σ) = inr files →
  default ∅ (dicts (final (V1.get_remote_files world sftp base_path σ)) !! files) !! key
    = Some record →
  full_path record = Some (base_path +:+ "/" +:+ key).
Proof.
  intros Hplain Hout Hkey.
  pose proof (V1_get_remote_files_outcome world sftp base_path σ) as Hok.
  destruct (scan_error (host world (sftp_server sftp))) as [e|] eqn:Hscan;
    [by rewrite Hok in Hout |].
  destruct (V1_get_remote_files_fills world sftp base_path σ Hscan) as [Ho Hf].
  rewrite Ho in Hout. injection Hout as <-. rewrite Hf in Hkey. simpl in Hkey.
  rewrite lookup_insert_eq in Hkey. simpl in Hkey.
  apply snapshot_of_elem in Hkey. unfold remote_records in Hkey.
  apply list_elem_of_In, in_flat_map in Hkey as (entry & Hentry & Hin).
  apply (entry_records_full_paths world base_path entry base_path "." key record).
  - unfold plain_listing in Hplain. rewrite forallb_forall in Hplain. by apply Hplain.
  - unfold linked. by rewrite decide_True.
  - by apply list_elem_of_In.
Qed.

(** When the names that the server lists are plain, every record of the dict
    that [get_remote_files] (of v1 and of v2) returns has as its full path
    [base_path/key], for its key: the path that [delete_remote_files] builds
    from the key of a file is the path under which the file was read. *)
Theorem remote_keys_locate_files
    (world : env) (sftp : sftp_client) (base_path : string) (σ : store)
    (files : nat) (key : string) (record : file_record) :
  plain_listing (host world (sftp_server sftp)) = true →
  (outcome (V1.get_remote_files world sftp base_path σ) = inr files →
   default ∅ (dicts (final (V1.get_remote_files world sftp base_path σ)) !! files) !! key
     = Some record →
   full_path record = Some (base_path +:+ "/" +:+ key)) ∧
  (outcome (V2.get_remote_files world sftp base_path σ) = inr files →
   default ∅ (dicts (final (V2.get_remote_files world sftp base_path σ)) !! files) !! key
     = Some record →
   full_path record = Some (base_path +:+ "/" +:+ key)).
Proof.
  intros Hplain. split.
  - by apply V1_remote_snapshot_full_paths.
  - rewrite <- (get_remote_files_v1_v2 world sftp base_path).
    by apply V1_remote_snapshot_full_paths.
Qed.

(** ** What a run does on the servers *)

(** [path] is [base] or lies under it. *)
Definition under (base path : string) : Prop :=
  path = base ∨ ∃ rel, path = base +:+ "/" +:+ rel.

(** The credential that the arguments ask for: the key of the key file when
    a key path is given and not empty, the password otherwise. *)
Definition configured_credential (world : env) (a : arguments) (cred : credential) : Prop :=
  if truthy (key_path a) then
    ∃ key, private_key_file world (default "" (key_path a)) = inr key ∧ cred = Pkey key
  else cred = Password (password a).

(** The snapshot of a server: what a scan of it that returns leaves in the
    dict, and its keys. *)
Definition remote_snapshot (world : env) (a : arguments) (server : string)
    : gmap string file_record :=
  snapshot_of (remote_records world (remote_path a) (host world server)).

Definition remote_keys (world : env) (a : arguments) (server : string) : gset string :=
  dom (remote_snapshot world a server).

(** What processing [server] may do, when the local snapshot is [S]. *)
Definition allowed (world : env) (a : arguments) (S : gmap string file_record)
    (server : string) (ev : event) : Prop :=
  match ev with
  | EvRglob _ | EvOpenLocal _ => False
  | EvLoadKey kp => truthy (key_path a) = true ∧ key_path a = Some kp
  | EvConnect s u cred => s = server ∧ u = username a ∧ configured_credential world a cred
  | EvOpenSftp s | EvSftpClose s | EvSshClose s => s = server
  | EvListdir s p | EvSftpOpen s p => s = server ∧ under (remote_path a) p
  | EvSftpRemove s p =>
      s = server ∧
      ∃ file, p = remote_path a +:+ "/" +:+ file ∧
              file ∈ remote_keys world a server ∖ dom S
  | EvInput n s =>
      s = server ∧ auto_delete a = true ∧ 0 < n ∧
      n = size (remote_keys world a server ∖ dom S)
  | EvPrint msg | EvLog _ msg =>
      is_diff_message msg → reports_diff S (remote_snapshot world a server) ev
  end.

(** [follows P Pre m Post]: from a heap with [Pre], every event that [m]
    emits has [P], and when [m] returns [x] the heap has [Post x]. *)
Definition follows (P : event → Prop) (Pre : store → Prop) {A} (m : M A)
    (Post : A → store → Prop) : Prop :=
  ∀ σ, Pre σ →
    Forall P (emitted (m σ)) ∧ ∀ x, outcome (m σ) = inr x → Post x (final (m σ)).

Section Follows.
Context (P : event → Prop).

Lemma follows_bind {A B} (Pre : store → Prop) (m : M A) (Mid : A → store → Prop)
    (k : A → M B) (Post : B → store → Prop) :
  follows P Pre m Mid → (∀ x, follows P (Mid x) (k x) Post) →
  follows P Pre (bind m k) Post.
Proof.
  intros Hm Hk σ Hσ. rewrite bind_run. destruct (Hm σ Hσ) as [Ht Hpost].
  destruct (outcome (m σ)) as [e|x] eqn:E; simpl; [done |].
  destruct (Hk x (final (m σ)) (Hpost x eq_refl)) as [Ht' Hpost'].
  split; [by apply Forall_app | done].
Qed.

Lemma follows_pure {A} (φ : Prop) (Pre : store → Prop) (m : M A) (Post : A → store → Prop) :
  (φ → follows P Pre m Post) → follows P (λ σ, φ ∧ Pre σ) m Post.
Proof. intros H σ [Hφ Hσ]. by apply H. Qed.

Lemma emitted_for_each {A} (xs : list A) (body : A → M unit) :
  (∀ x σ, x ∈ xs → Forall P (emitted (body x σ))) →
  ∀ σ, Forall P (emitted (for_each xs body σ)).
Proof.
  induction xs as [|x xs IH]; intros H σ; [constructor |].
  rewrite for_each_cons, bind_run.
  destruct (outcome (body x σ)) as [e|[]]; simpl.
  - apply H. by left.
  - apply Forall_app. split; [apply H; by left |].
    apply IH. intros y σ' Hy. apply H. by right.
Qed.
End Follows.

Lemma emitted_bind (P : event → Prop) {A B} (m : M A) (k : A → M B) σ :
  Forall P (emitted (m σ)) → (∀ x, Forall P (emitted (k x (final (m σ))))) →
  Forall P (emitted (bind m k σ)).
Proof.
  intros Hm Hk. rewrite bind_run. destruct (outcome (m σ)); [done |].
  simpl. by apply Forall_app.
Qed.

Lemma under_child base path filename :
  under base path → under base (path +:+ "/" +:+ filename).
Proof.
  intros [-> | [rel ->]]; right.
  - by exists filename.
  - exists (rel +:+ "/" +:+ filename). by rewrite string_app_assoc.
Qed.

(** The effects of a scan are on the server of the SFTP client, at the base
    path or under it. *)
Definition scan_event (server base : string) (ev : event) : Prop :=
  match ev with
  | EvListdir s p | EvSftpOpen s p => s = server ∧ under base p
  | _ => False
  end.

Lemma V1_visit_confined world sftp files base entry :
  ∀ path relative_root σ, under base path →
    Forall (scan_event (sftp_server sftp) base)
           (emitted (V1.visit world sftp files path relative_root entry σ)).
Proof.
  induction entry as [filename contents | filename err entries IH]
    using remote_entry_nested_ind; intros path relative_root σ Hpath.
  - simpl. unfold V1.calculate_remote_checksum, sftp_open_rb. rewrite !bind_run.
    destruct contents as [e|f]; simpl;
      (constructor; [split; [done | by apply under_child] | constructor]).
  - cbn [V1.visit]. unfold listdir_attr. rewrite !bind_run.
    cbn [emit outcome final emitted].
    destruct err as [e|]; cbn [answer raise ret outcome final emitted].
    + constructor; [split; [done | by apply under_child] | constructor].
    + constructor; [split; [done | by apply under_child] |]. simpl.
      apply emitted_for_each. intros x σ' Hx.
      rewrite Forall_forall in IH. apply IH; [done | by apply under_child].
Qed.

Lemma V1_get_remote_files_confined world sftp base_path σ :
  Forall (scan_event (sftp_server sftp) base_path)
         (emitted (V1.get_remote_files world sftp base_path σ)).
Proof.
  unfold V1.get_remote_files, V1.recursive_list, listdir_attr. cbv zeta.
  rewrite bind_run. cbn [dict_new outcome final emitted].
  rewrite bind_run. rewrite (bind_run (bind _ _)). rewrite (bind_run (emit _)).
  cbn [emit outcome final emitted].
  destruct (root_listing_error _) as [e|]; cbn [answer raise ret outcome final emitted].
  - repeat constructor.
  - match goal with |- context [for_each ?xs ?body ?s] =>
      pose proof (emitted_for_each (scan_event (sftp_server sftp) base_path) xs body) as H;
      specialize (H (λ x σ' _, V1_visit_confined world sftp _ base_path x base_path "." σ'
                                  (or_introl eq_refl)) s);
      destruct (outcome (for_each xs body s))
    end; simpl; repeat constructor; try apply Forall_app; rewrite ?app_nil_r; try done.
Qed.

Section Allowed.
Context (world : env) (a : arguments) (src : nat) (S : gmap string file_record).
Context (server : string).

Local Abbreviation P := (allowed world a S server).
Local Abbreviation D := (remote_snapshot world a server).

Ltac events :=
  repeat first [apply Forall_nil_2 | apply Forall_cons_2 | apply Forall_app_2];
  try done; try (by intros []).

Lemma scan_event_allowed ev : scan_event server (remote_path a) ev → P ev.
Proof. by destruct ev. Qed.

Lemma report_allowed ev : reports_diff S D ev → P ev.
Proof.
  unfold reports_diff. destruct (V1.compare_files S D) as [[added deleted] modified] eqn:E.
  destruct ev; try done; simpl; unfold reports_diff; rewrite E; by intros.
Qed.

Lemma connect_allowed ssh :
  follows P (holds src S)
    (if truthy (key_path a) then
       let* key := from_private_key_file world (default "" (key_path a)) in
       ssh_connect world ssh server (username a) (Pkey key)
     else
       ssh_connect world ssh server (username a) (Password (password a)))
    (λ _, holds src S).
Proof.
  intros σ Hσ. unfold from_private_key_file, ssh_connect.
  destruct (truthy (key_path a)) eqn:Hkey.
  - assert (key_path a = Some (default "" (key_path a))) as Hsome
      by (by destruct (key_path a)).
    rewrite !bind_run. cbn [emit outcome final emitted].
    destruct (private_key_file world _) as [e|key] eqn:Hfile;
      cbn [answer_val raise ret outcome final emitted].
    + split; [| done]. simpl. events.
    + rewrite !bind_run. cbn [emit outcome final emitted].
      assert (P (EvConnect server (username a) (Pkey key))) as Hconnect.
      { simpl. split_and!; [done | done |]. unfold configured_credential.
        rewrite Hkey. by exists key. }
      destruct (connect_result _ _ _) as [e|];
        cbn [answer raise ret set_session outcome final emitted].
      * split; [| done]. simpl. events.
      * split; [simpl; events |]. by intros _ _.
  - rewrite !bind_run. cbn [emit outcome final emitted].
    assert (P (EvConnect server (username a) (Password (password a)))) as Hconnect.
    { simpl. split_and!; [done | done |]. unfold configured_credential. by rewrite Hkey. }
    destruct (connect_result _ _ _) as [e|];
      cbn [answer raise ret set_session outcome final emitted].
    + split; [| done]. simpl. events.
    + split; [simpl; events |]. by intros _ _.
Qed.

Lemma open_sftp_allowed ssh :
  follows P (holds src S) (open_sftp world ssh server)
    (λ sftp σ, sftp = {| sftp_ssh := ssh; sftp_server := server |} ∧ holds src S σ).
Proof.
  intros σ Hσ. unfold open_sftp. rewrite !bind_run. cbn [emit outcome final emitted].
  destruct (open_sftp_result _) as [e|];
    cbn [answer raise ret set_session outcome final emitted].
  - split; [simpl; events | done].
  - split; [simpl; events |]. by intros sftp [= <-].
Qed.

(** The dict that the scan returns holds the snapshot of the server, and the
    source dict is as before. *)
Lemma get_remote_files_allowed sftp :
  sftp_server sftp = server →
  follows P (holds src S) (V1.get_remote_files world sftp (remote_path a))
    (λ dest_files σ, holds src S σ ∧ dicts σ !! dest_files = Some D).
Proof.
  intros Hserver σ Hσ. split.
  - eapply Forall_impl; [apply V1_get_remote_files_confined |].
    rewrite Hserver. apply scan_event_allowed.
  - intros d Hd.
    pose proof (V1_get_remote_files_outcome world sftp (remote_path a) σ) as Hout.
    destruct (scan_error (host world (sftp_server sftp))) as [e|] eqn:Hscan;
      [by rewrite Hout in Hd |].
    destruct (V1_get_remote_files_fills world sftp (remote_path a) σ Hscan) as [Ho Hf].
    rewrite Ho in Hd. injection Hd as <-. rewrite Hf, Hserver. unfold holds. simpl.
    rewrite lookup_insert_eq. split; [| done].
    rewrite lookup_insert_ne; [done |]. intros Heq.
    apply (is_fresh (dom (dicts σ))). rewrite Heq. apply elem_of_dom. by eexists.
Qed.

Lemma V1_delete_allowed sftp (deleted : gset string) σ :
  sftp_server sftp = server →
  deleted ⊆ remote_keys world a server ∖ dom S →
  Forall P (emitted (V1.delete_remote_files world sftp deleted (remote_path a) σ)).
Proof.
  intros Hserver Hdeleted. unfold V1.delete_remote_files.
  apply emitted_for_each. intros file σ' Hfile. cbv zeta.
  rewrite V1_delete_step, Hserver. cbn [emitted].
  apply Forall_cons_2.
  - simpl. split; [done |]. exists file. split; [done |].
    apply Hdeleted. by apply elem_of_elements.
  - destruct (remove_result _ _) as [[msg | cls msg |]|]; events.
Qed.

Lemma V2_delete_allowed sftp (deleted : gset string) σ :
  sftp_server sftp = server →
  deleted ⊆ remote_keys world a server ∖ dom S →
  Forall P (emitted (V2.delete_remote_files world sftp deleted (remote_path a) σ)).
Proof.
  intros Hserver Hdeleted. unfold V2.delete_remote_files.
  apply emitted_for_each. intros file σ' Hfile. cbv zeta.
  rewrite V2_delete_step, Hserver. cbn [emitted].
  apply Forall_cons_2.
  - simpl. split; [done |]. exists file. split; [done |].
    apply Hdeleted. by apply elem_of_elements.
  - destruct (remove_result _ _) as [[msg | cls msg |]|]; events.
Qed.

Lemma sftp_close_allowed sftp σ :
  sftp_server sftp = server →
  Forall P (emitted (sftp_close world sftp σ)).
Proof.
  intros Hserver. unfold sftp_close. rewrite !bind_run.
  cbn [emit outcome final emitted]. rewrite Hserver.
  destruct (sftp_close_result _); simpl; events.
Qed.

(** The prompt and what follows it. *)
Lemma confirm_allowed (deleted : gset string) (delete skip : M unit) σ :
  deleted = remote_keys world a server ∖ dom S →
  (∀ σ', Forall P (emitted (delete σ'))) →
  (∀ σ', Forall P (emitted (skip σ'))) →
  Forall P (emitted
    ((if auto_delete a && bool_decide (deleted ≠ ∅) then
        let* confirm := input world (size deleted) server in
        if decide (lower confirm = "tak") then delete else skip
      else ret tt) σ)).
Proof.
  intros Hdeleted Hdelete Hskip.
  destruct (auto_delete a) eqn:Hauto; [| simpl; events].
  case_bool_decide as Hne; [| simpl; events]. cbn [andb].
  unfold input. rewrite !bind_run. cbn [emit outcome final emitted].
  assert (P (EvInput (size deleted) server)) as Hinput.
  { simpl. split_and!; [done | done | | by rewrite Hdeleted].
    assert (size deleted ≠ 0) as Hsize; [| lia].
    apply size_non_empty_iff. intros Hempty. by apply Hne, leibniz_equiv. }
  destruct (operator_answer _) as [e|confirm];
    cbn [answer_val raise ret outcome final emitted]; [simpl; events |].
  apply Forall_cons_2; [done |]. simpl.
  destruct (decide (lower confirm = "tak")); [apply Hdelete | apply Hskip].
Qed.

(** A class of v2's report: a line for each of its files, or one line that
    says there is none. *)
Lemma listing_allowed (files : gset string) (line : string → message) (c : color)
    (none : M unit) σ :
  (∀ file, file ∈ files → P (EvLog c (line file))) →
  (∀ σ', Forall P (emitted (none σ'))) →
  Forall P (emitted
    ((if bool_decide (files ≠ ∅) then
        for_each (elements files) (λ file, log_colored (line file) c)
      else none) σ)).
Proof.
  intros Hline Hnone. case_bool_decide; [| apply Hnone].
  apply emitted_for_each. intros file σ' Hfile. simpl. events.
  apply Hline. by apply elem_of_elements.
Qed.

Lemma V1_try_block_allowed ssh σ :
  holds src S σ → Forall P (emitted (V1.try_block world a src server ssh σ)).
Proof.
  intros Hσ.
  assert (follows P (holds src S) (V1.try_block world a src server ssh) (λ _ _, True))
    as H; [| by apply H].
  unfold V1.try_block.
  eapply follows_bind; [apply connect_allowed |]. intros [].
  eapply follows_bind; [apply open_sftp_allowed |]. intros sftp.
  apply follows_pure. intros Hsftp. subst sftp.
  eapply follows_bind; [by apply get_remote_files_allowed |]. intros dest_files.
  intros σ' [Hsrc Hdst]. split; [| done]. unfold holds in Hsrc.
  rewrite bind_run. cbn [dict_contents outcome final emitted].
  rewrite bind_run. cbn [dict_contents outcome final emitted].
  rewrite Hsrc, Hdst. cbn [default from_option id].
  destruct (V1.compare_files S D) as [[added deleted] modified] eqn:Hcmp.
  assert (deleted = remote_keys world a server ∖ dom S) as Hdeleted
    by (unfold V1.compare_files in Hcmp; by injection Hcmp as _ <- _).
  repeat (apply emitted_bind;
          [simpl; events; apply report_allowed; unfold reports_diff; by rewrite Hcmp
          | intros []; cbn [print emit final]]).
  apply emitted_bind; [| intros []; by apply sftp_close_allowed].
  apply confirm_allowed; [done | |].
  - intros σ''. apply V1_delete_allowed; [done | by rewrite Hdeleted].
  - intros σ''. simpl. events.
Qed.

Lemma V2_try_block_allowed ssh σ :
  holds src S σ → Forall P (emitted (V2.try_block world a src server ssh σ)).
Proof.
  intros Hσ.
  assert (follows P (holds src S) (V2.try_block world a src server ssh) (λ _ _, True))
    as H; [| by apply H].
  unfold V2.try_block.
  eapply follows_bind; [apply connect_allowed |]. intros [].
  eapply follows_bind; [apply open_sftp_allowed |]. intros sftp.
  apply follows_pure. intros Hsftp. subst sftp.
  eapply follows_bind; [by apply get_remote_files_allowed |]. intros dest_files.
  intros σ' [Hsrc Hdst]. split; [| done]. unfold holds in Hsrc.
  rewrite bind_run. cbn [dict_contents outcome final emitted].
  rewrite bind_run. cbn [dict_contents outcome final emitted].
  rewrite Hsrc, Hdst. cbn [default from_option id].
  change (V2.compare_files S D) with (V1.compare_files S D).
  destruct (V1.compare_files S D) as [[added deleted] modified] eqn:Hcmp.
  assert (deleted = remote_keys world a server ∖ dom S) as Hdeleted
    by (unfold V1.compare_files in Hcmp; by injection Hcmp as _ <- _).
  repeat (apply emitted_bind;
          [apply listing_allowed;
           [ intros file Hfile; apply report_allowed; unfold reports_diff; by rewrite Hcmp
           | intros σ''; simpl; events ]
          | intros []]).
  apply emitted_bind; [| intros []; by apply sftp_close_allowed].
  apply confirm_allowed; [done | |].
  - intros σ''. apply V2_delete_allowed; [done | by rewrite Hdeleted].
  - intros σ''. simpl. events.
Qed.

(** An iteration, for a try block that keeps to what is allowed. *)
Lemma iteration_allowed (header : event) (report : exn → event) (block : nat → M unit) σ :
  P header → (∀ e, P (report e)) →
  (∀ ssh σ', dicts σ' = dicts σ → Forall P (emitted (block ssh σ'))) →
  Forall P (emitted
    ((emit header ;;
      let* ssh := SSHClient in
      try_finally
        (try_except (block ssh)
                    (λ e, if is_Exception e then Some (emit (report e)) else None))
        (ssh_close ssh server)) σ)).
Proof.
  intros Hheader Hreport Hblock.
  rewrite !bind_run. unfold try_finally, try_except. simpl.
  set (ssh := fresh (dom (clients σ))).
  match goal with |- context [block ssh ?s] => set (σ1 := s) end.
  pose proof (Hblock ssh σ1 eq_refl) as Hb.
  apply Forall_cons_2; [done |].
  destruct (outcome (block ssh σ1)) as [e|[]]; [destruct (is_Exception e) |];
    simpl; events.
Qed.

Lemma V1_loop_body_allowed σ :
  holds src S σ → Forall P (emitted (V1.loop_body world a src server σ)).
Proof.
  intros Hσ.
  apply (iteration_allowed (EvPrint (MsgComparing server))
           (λ e, EvPrint (MsgConnError server e)) (V1.try_block world a src server) σ).
  - by intros [].
  - intros e []. 
  - intros ssh σ' Hdicts. apply V1_try_block_allowed. unfold holds. by rewrite Hdicts.
Qed.

Lemma V2_loop_body_allowed σ :
  holds src S σ → Forall P (emitted (V2.loop_body world a src server σ)).
Proof.
  intros Hσ.
  apply (iteration_allowed (EvLog CYAN (MsgComparing server))
           (λ e, EvLog RED (MsgConnError server e)) (V2.try_block world a src server) σ).
  - by intros [].
  - intros e [].
  - intros ssh σ' Hdicts. apply V2_try_block_allowed. unfold holds. by rewrite Hdicts.
Qed.
End Allowed.

(** The loop, for a body that keeps to what is allowed and keeps the source
    dict. *)
Lemma loop_allowed world a src S (body : string → M unit) targets :
  (∀ server σ, holds src S σ →
     Forall (allowed world a S server) (emitted (body server σ)) ∧
     holds src S (final (body server σ))) →
  ∀ σ, holds src S σ →
    Forall (λ ev, ∃ server, server ∈ targets ∧ allowed world a S server ev)
           (emitted (for_each targets body σ)).
Proof.
  intros Hbody.
  induction targets as [|server targets IH]; intros σ Hσ; [constructor |].
  rewrite for_each_cons, bind_run.
  destruct (Hbody server σ Hσ) as [Hev Hkeeps].
  assert (Forall (λ ev, ∃ server', server' ∈ server :: targets ∧
                                   allowed world a S server' ev)
                 (emitted (body server σ))) as Hfirst.
  { eapply Forall_impl; [exact Hev |].
    intros ev Hallowed. exists server. split; [by left | done]. }
  destruct (outcome (body server σ)) as [e|[]] eqn:Hout;
    cbn [outcome final emitted]; [done |].
  apply Forall_app_2; [done |].
  eapply Forall_impl; [by apply IH |].
  intros ev (server' & Hin & Hallowed). exists server'. split; [by right | done].
Qed.

Lemma final_for_each_one {A} (x : A) (body : A → M unit) σ :
  final (for_each [x] body σ) = final (body x σ).
Proof. rewrite for_each_cons, bind_run. by destruct (outcome (body x σ)). Qed.

(** What a run may do: scan the local tree and, when that returns, on a
    server of the list what is allowed there for the local snapshot. *)
Definition run_allowed (world : env) (a : arguments) (ev : event) : Prop :=
  match ev with
  | EvRglob _ | EvOpenLocal _ => True
  | _ => first_some local_open_error (local_tree world (source_path a)) = None ∧
         ∃ server, server ∈ servers a ∧
           allowed world a
                   (snapshot_of (local_records world (local_tree world (source_path a))))
                   server ev
  end.

Lemma run_allowed_intro world a (loop_body : nat → string → M unit) σ :
  (∀ src S server σ', holds src S σ' →
     Forall (allowed world a S server) (emitted (loop_body src server σ')) ∧
     holds src S (final (loop_body src server σ'))) →
  Forall (run_allowed world a)
         (emitted ((let* source_files := V1.get_local_files world (source_path a) in
                    for_each (servers a) (loop_body source_files)) σ)).
Proof.
  intros Hbody.
  destruct (first_some local_open_error (local_tree world (source_path a)))
    as [e|] eqn:Hscan.
  - assert (outcome (V1.get_local_files world (source_path a) σ) = inl e) as Ho
      by (by rewrite V1_get_local_files_outcome, Hscan).
    rewrite (bind_raises _ _ _ e Ho). cbn [emitted].
    destruct (V1_get_local_files_run world (source_path a) σ) as [(t & -> & Hopen) _].
    constructor; [done |]. eapply Forall_impl; [exact Hopen |]. by intros [].
  - rewrite bind_run, (V1_get_local_files_result world _ σ Hscan).
    cbn [outcome final emitted].
    apply Forall_cons_2; [done |]. apply Forall_app_2.
    { apply Forall_fmap, Forall_true. by intros entry. }
    set (S := snapshot_of (local_records world (local_tree world (source_path a)))).
    eapply Forall_impl;
      [apply (loop_allowed world a (fresh (dom (dicts σ))) S); [by apply Hbody |] |].
    + unfold holds. simpl. by rewrite lookup_insert_eq.
    + intros ev (server & Hin & Hev). unfold run_allowed. rewrite Hscan.
      destruct ev; try done; (split; [done | by exists server]).
Qed.

Lemma V1_run_allowed world a σ :
  Forall (run_allowed world a) (emitted (V1.compare_directories world a σ)).
Proof.
  apply (run_allowed_intro world a (V1.loop_body world a)).
  intros src S server σ' Hσ'. split; [by apply V1_loop_body_allowed |].
  rewrite <- final_for_each_one. by apply (V1_loop_keeps_snapshot world a src S [server]).
Qed.

Lemma V2_run_allowed world a σ :
  Forall (run_allowed world a) (emitted (V2.compare_directories world a σ)).
Proof.
  apply (run_allowed_intro world a (V2.loop_body world a)).
  intros src S server σ' Hσ'. split; [by apply V2_loop_body_allowed |].
  rewrite <- final_for_each_one. by apply (V2_loop_keeps_snapshot world a src S [server]).
Qed.

Lemma run_allowed_elem world a σ ev :
  ev ∈ emitted (V1.compare_directories world a σ) ∨
  ev ∈ emitted (V2.compare_directories world a σ) →
  run_allowed world a ev.
Proof.
  intros [H | H].
  - pose proof (V1_run_allowed world a σ) as Hall. rewrite Forall_forall in Hall. by apply Hall.
  - pose proof (V2_run_allowed world a σ) as Hall. rewrite Forall_forall in Hall. by apply Hall.
Qed.





(** In every run of [compare_directories] (of v1 and of v2), every
    connection is to a server of the list, for the user name of the arguments
    and with the credential they ask for: the key of the key file when a key
    path is given and not empty, and then only when the key could be loaded;
    the password otherwise. *)
Theorem credentials_as_configured
    (world : env) (a : arguments) (σ : store) (server user : string) (cred : credential) :
  EvConnect server user cred ∈ emitted (V1.compare_directories world a σ) ∨
  EvConnect server user cred ∈ emitted (V2.compare_directories world a σ) →
  server ∈ servers a ∧ user = username a ∧
  if truthy (key_path a) then
    ∃ key, private_key_file world (default "" (key_path a)) = inr key ∧ cred = Pkey key
  else cred = Password (password a).
Proof.
  intros H. apply run_allowed_elem in H.
  by destruct H as (Hscan & server' & Hin & <- & -> & Hcred).
Qed.

(** In every run of [compare_directories] (of v1 and of v2), the operator
    is asked only when auto-delete is on, about a server of the list, and the
    number in the question is the number of files that the scan of that server
    finds and that are no regular files of the local tree, which is not 0. *)
Theorem prompt_counts_superfluous_files
    (world : env) (a : arguments) (σ : store) (n : nat) (server : string) :
  EvInput n server ∈ emitted (V1.compare_directories world a σ) ∨
  EvInput n server ∈ emitted (V2.compare_directories world a σ) →
  auto_delete a = true ∧ server ∈ servers a ∧ 0 < n ∧
  n = size (remote_keys world a server ∖
            list_to_set (regular_files (local_tree world (source_path a)))).
Proof.
  intros H. apply run_allowed_elem in H.
  destruct H as (Hscan & server' & Hin & <- & Hauto & Hpos & Hn).
  by rewrite snapshot_of_dom, local_records_paths in Hn.
Qed.


(** A line of the report that is about the diff. *)
Definition is_diff_report (ev : event) : Prop :=
  match ev with
  | EvPrint msg | EvLog _ msg => is_diff_message msg
  | _ => False
  end.

(** When the source dict holds [S], every line about the diff that the
    iteration for [server] writes (of v1: the three sets; of v2: the lines of
    the added, deleted, modified and unchanged files) reports the diff of [S]
    against the snapshot of that server, which is what the scan of the server
    has left in the dict it returned. *)
Theorem reported_diff_is_of_the_target
    (world : env) (a : arguments) (src : nat) (S : gmap string file_record)
    (server : string) (σ : store) (ev : event) :
  holds src S σ →
  ev ∈ emitted (V1.loop_body world a src server σ) ∨
  ev ∈ emitted (V2.loop_body world a src server σ) →
  is_diff_report ev →
  reports_diff S (remote_snapshot world a server) ev.
Proof.
  intros Hσ Hev Hreport.
  assert (allowed world a S server ev) as H.
  { destruct Hev as [Hev | Hev].
    - pose proof (V1_loop_body_allowed world a src S server σ Hσ) as Hall.
      rewrite Forall_forall in Hall. by apply Hall.
    - pose proof (V2_loop_body_allowed world a src S server σ Hσ) as Hall.
      rewrite Forall_forall in Hall. by apply Hall. }
  destruct ev; try done; by apply H.
Qed.

(** ** What ends a run *)

Lemma for_each_raises {A} (xs : list A) (body : A → M unit) σ e :
  outcome (for_each xs body σ) = inl e →
  ∃ x σ', x ∈ xs ∧ outcome (body x σ') = inl e.
Proof.
  revert σ. induction xs as [|x xs IH]; intros σ H; [done |].
  rewrite for_each_cons, bind_run in H.
  destruct (outcome (body x σ)) as [e'|[]] eqn:Hout; cbn [outcome] in H.
  - exists x, σ. split; [by left | congruence].
  - destruct (IH _ H) as (y & σ' & Hy & Hraise). exists y, σ'. split; [by right | done].
Qed.

(** An exception leaves an iteration only when the try block raised it and
    it is no [Exception]. *)
Lemma iteration_escape (header : event) (report : exn → event) (block : nat → M unit)
    server e σ :
  outcome ((emit header ;;
            let* ssh := SSHClient in
            try_finally
              (try_except (block ssh)
                          (λ e, if is_Exception e then Some (emit (report e)) else None))
              (ssh_close ssh server)) σ) = inl e →
  is_Exception e = false ∧ ∃ ssh σ', outcome (block ssh σ') = inl e.
Proof.
  rewrite !bind_run. unfold try_finally, try_except. simpl.
  set (ssh := fresh (dom (clients σ))).
  match goal with |- context [block ssh ?s] => set (σ1 := s) end.
  destruct (outcome (block ssh σ1)) as [e'|[]] eqn:Hout; [| congruence].
  destruct (is_Exception e') eqn:He'; simpl; [done |].
  rewrite Hout. intros [= <-]. split; [done |]. by exists ssh, σ1.
Qed.

Lemma V1_run_escape world a σ e :
  outcome (V1.compare_directories world a σ) = inl e →
  first_some local_open_error (local_tree world (source_path a)) = Some e ∨
  is_Exception e = false.
Proof.
  unfold V1.compare_directories. rewrite bind_run.
  pose proof (V1_get_local_files_outcome world (source_path a) σ) as Hlocal.
  destruct (first_some local_open_error _) as [e'|]; rewrite Hlocal; cbn [outcome].
  - intros [= <-]. by left.
  - intros (server & σ' & _ & Hraise)%for_each_raises. right.
    by apply (iteration_escape (EvPrint (MsgComparing server))
                (λ e, EvPrint (MsgConnError server e))
                (V1.try_block world a (fresh (dom (dicts σ))) server) server e σ').
Qed.

(** A run of [compare_directories] (of v1 and of v2) ends with an exception
    only when the local scan fails, with the error of the first regular file
    that cannot be read, or when something is raised that is no [Exception]:
    no error of a server that is an [Exception] ends the run, at whatever step
    it is raised. *)
Theorem run_ends_on_local_error_or_interrupt
    (world : env) (a : arguments) (σ : store) (e : exn) :
  outcome (V1.compare_directories world a σ) = inl e ∨
  outcome (V2.compare_directories world a σ) = inl e →
  first_some local_open_error (local_tree world (source_path a)) = Some e ∨
  is_Exception e = false.
Proof.
  destruct (compare_directories_sim world a σ) as (Hout & _ & _).
  intros [H | H]; [| rewrite <- Hout in H]; by apply (V1_run_escape world a σ).
Qed.

(** ** Checksums and digests *)

Section Hex.
Import Checksum.

Lemma hex_digit_inj (n m : N) :
  (n < 16)%N → (m < 16)%N → hex_digit n = hex_digit m → n = m.
Proof.
  intros Hn Hm.
  assert (n = 0 ∨ n = 1 ∨ n = 2 ∨ n = 3 ∨ n = 4 ∨ n = 5 ∨ n = 6 ∨ n = 7 ∨ n = 8 ∨
          n = 9 ∨ n = 10 ∨ n = 11 ∨ n = 12 ∨ n = 13 ∨ n = 14 ∨ n = 15)%N as Hn' by lia.
  assert (m = 0 ∨ m = 1 ∨ m = 2 ∨ m = 3 ∨ m = 4 ∨ m = 5 ∨ m = 6 ∨ m = 7 ∨ m = 8 ∨
          m = 9 ∨ m = 10 ∨ m = 11 ∨ m = 12 ∨ m = 13 ∨ m = 14 ∨ m = 15)%N as Hm' by lia.
  clear Hn Hm.
  repeat destruct Hn' as [-> | Hn']; try subst n;
    repeat destruct Hm' as [-> | Hm']; try subst m;
    intros H; first [reflexivity | discriminate H].
Qed.

Lemma hex_of_byte_inj (b b' : Byte.byte) : hex_of_byte b = hex_of_byte b' → b = b'.
Proof.
  unfold hex_of_byte. intros [= Hhigh Hlow].
  pose proof (Byte.to_N_bounded b) as Hb. pose proof (Byte.to_N_bounded b') as Hb'.
  apply hex_digit_inj in Hhigh;
    [| apply N.Div0.div_lt_upper_bound; lia | apply N.Div0.div_lt_upper_bound; lia].
  apply hex_digit_inj in Hlow; [| by apply N.mod_lt | by apply N.mod_lt].
  assert (Byte.to_N b = Byte.to_N b') as Heq.
  { rewrite (N.div_mod' (Byte.to_N b) 16), (N.div_mod' (Byte.to_N b') 16). congruence. }
  apply (inj Some). by rewrite <- !Byte.of_to_N, Heq.
Qed.

Lemma hex_cons b bs :
  hex (b :: bs)
  = String (hex_digit (Byte.to_N b / 16)) (String (hex_digit (Byte.to_N b mod 16)) (hex bs)).
Proof. reflexivity. Qed.

Lemma hex_inj (bs bs' : list Byte.byte) : hex bs = hex bs' → bs = bs'.
Proof.
  revert bs'. induction bs as [|b bs IH]; intros [|b' bs']; [done | done | done |].
  rewrite !hex_cons. intros [= Hhigh Hlow Hrest]. f_equal; [| by apply IH].
  apply hex_of_byte_inj. unfold hex_of_byte. by rewrite Hhigh, Hlow.
Qed.
End Hex.

(** A file that both snapshots have, with the checksums that
    [calculate_local_checksum] and [calculate_remote_checksum] compute for its
    two contents, is in the modified set of [compare_files] (of v1 and of v2)
    exactly when the digests of the two contents differ, whatever short reads
    the two streams make: reading in chunks and writing the digest in
    hexadecimal neither hides a difference nor makes one. *)
Theorem modified_iff_digests_differ
    (world : env) (source dest : gmap string file_record) (file : string)
    (local_file remote_file : Checksum.file_obj) (remote_full_path : string) :
  source !! file
    = Some {| checksum := V1.local_digest world 4096 local_file "sha256";
              full_path := None |} →
  dest !! file
    = Some {| checksum := V1.remote_digest world 4096 remote_file "sha256";
              full_path := Some remote_full_path |} →
  (file ∈ (V1.compare_files source dest).2 ↔
   hash_digest world "sha256" (Checksum.pending local_file)
   ≠ hash_digest world "sha256" (Checksum.pending remote_file)) ∧
  (file ∈ (V2.compare_files source dest).2 ↔
   hash_digest world "sha256" (Checksum.pending local_file)
   ≠ hash_digest world "sha256" (Checksum.pending remote_file)).
Proof.
  intros Hsource Hdest.
  assert (file ∈ (V1.compare_files source dest).2 ↔
          hash_digest world "sha256" (Checksum.pending local_file)
          ≠ hash_digest world "sha256" (Checksum.pending remote_file)) as H.
  { rewrite V1_modified_spec. rewrite V1_local_digest, V1_remote_digest in * by done.
    unfold content_digest in *. split.
    - intros (s & d & Hs & Hd & Hne) Heq. rewrite Hsource in Hs. rewrite Hdest in Hd.
      injection Hs as <-. injection Hd as <-. simpl in Hne. by rewrite Heq in Hne.
    - intros Hne. eexists _, _. split_and!; [done | done |]. simpl.
      intros Heq. by apply Hne, hex_inj. }
  split; [done |]. by rewrite <- compare_files_v1_v2.
Qed.

(** * Further scenarios *)

(** A server with the tree [{a.txt: "hi", sub/d.txt: "z"}] and an operator
    who agrees and then interrupts the removal. *)
Definition interrupting_host : remote_host := {|
  connect_result := λ _ _, None;
  open_sftp_result := None;
  root_listing_error := None;
  root_entries := [RFile "a.txt" (inr (file_of [x68; x69]));
                   RDir "sub" None [RFile "d.txt" (inr (file_of [x7a]))]];
  remove_result := λ _, Some KeyboardInterrupt;
  sftp_close_result := None;
  operator_answer := inr "tak"
|}.

(** The local tree of the scenario, and that server under every name. *)
Definition interrupted_world : env := {|
  hash_digest := plain_digest;
  local_tree := local_tree scenario_world;
  private_key_file := private_key_file scenario_world;
  host := λ _, interrupting_host
|}.

(** The servers of the scenario, and a local tree with a file that cannot be
    read after one that can. *)
Definition unreadable_local_world : env := {|
  hash_digest := plain_digest;
  local_tree := λ _,
    [ {| le_rel_path := "a.txt"; le_is_file := true; le_open := inr (file_of [x68; x69]) |};
      {| le_rel_path := "b.txt"; le_is_file := true;
         le_open := inl (OtherException "PermissionError" "b.txt") |} ];
  private_key_file := private_key_file scenario_world;
  host := host scenario_world
|}.

(** Two remote snapshots that differ in a full path only get the same diff. *)
Lemma scenario_full_paths_ignored :
  let source : gmap string file_record :=
    {[ "a.txt" := {| checksum := "6869"; full_path := None |} ]} in
  let dest : gmap string file_record :=
    {[ "a.txt" := {| checksum := "00"; full_path := Some "/remote/a.txt" |} ]} in
  let dest' : gmap string file_record :=
    {[ "a.txt" := {| checksum := "00"; full_path := Some "/mirror/a.txt" |} ]} in
  V1.compare_files source dest = V1.compare_files source dest' ∧
  V2.compare_files source dest = V2.compare_files source dest'.
Proof.
  cbv zeta. apply compare_files_checksums_only.
  - reflexivity.
  - by rewrite !map_fmap_singleton.
Defined.

(** The operator interrupts the removal of [sub/d.txt]: the interrupt escapes. *)
Lemma scenario_removal_interrupted :
  V1.delete_remote_files interrupted_world scenario_sftp {[ "sub/d.txt" ]} "/remote" empty_store
  = Result (inl KeyboardInterrupt) empty_store
      (flat_map (V1_removal_trace interrupted_world scenario_sftp "/remote") [] ++
       [EvSftpRemove "server1" ("/remote" +:+ "/" +:+ "sub/d.txt")]).
Proof.
  refine (proj1 (delete_remote_files_interrupted interrupted_world scenario_sftp
                   {[ "sub/d.txt" ]} "/remote" empty_store [] [] "sub/d.txt"
                   KeyboardInterrupt _ _ _ _)).
  - vm_compute. reflexivity.
  - intros file e H. by apply not_elem_of_nil in H.
  - reflexivity.
  - reflexivity.
Defined.

(** The local scan of the scenario. *)
Lemma scenario_local_snapshot :
  V1.get_local_files scenario_world "/local" empty_store
  = Result (inr (fresh (dom (dicts empty_store))))
      {| dicts := <[fresh (dom (dicts empty_store)) :=
                      snapshot_of (local_records scenario_world
                                     (local_tree scenario_world "/local"))]>
                    (dicts empty_store);
         clients := clients empty_store |}
      (EvRglob "/local"
       :: (EvOpenLocal <$> regular_files (local_tree scenario_world "/local"))).
Proof.
  refine (proj1 (get_local_files_snapshot scenario_world "/local" empty_store _)).
  vm_compute. reflexivity.
Defined.

(** The keys of the local snapshot of the scenario. *)
Lemma scenario_local_paths :
  dom (default ∅ (dicts (final (V1.get_local_files scenario_world "/local" empty_store))
                    !! fresh (dom (dicts empty_store))))
  = list_to_set (regular_files (local_tree scenario_world "/local")).
Proof.
  refine (proj1 (proj2 (local_snapshot_records scenario_world "/local" empty_store
                          (fresh (dom (dicts empty_store))) _))).
  left. vm_compute. reflexivity.
Defined.

(** With [b.txt] unreadable, the run ends with its error. *)
Lemma scenario_unreadable_local_file :
  outcome (V1.compare_directories unreadable_local_world scenario_arguments empty_store)
  = inl (OtherException "PermissionError" "b.txt").
Proof.
  refine (proj1 (proj2 (proj1 (unreadable_local_file_stops_run unreadable_local_world
                                 scenario_arguments empty_store
                                 (OtherException "PermissionError" "b.txt") _)))).
  vm_compute. reflexivity.
Defined.

(** The scan of a server with a directory returns a new dict. *)
Lemma scenario_remote_snapshot :
  outcome (V1.get_remote_files interrupted_world scenario_sftp "/remote" empty_store)
  = inr (fresh (dom (dicts empty_store))).
Proof.
  refine (proj1 (proj1 (get_remote_files_snapshot interrupted_world scenario_sftp
                          "/remote" empty_store _))).
  vm_compute. reflexivity.
Defined.

(** The key [sub/d.txt] locates the file under [/remote]. *)
Lemma scenario_remote_key_located :
  full_path {| checksum := "7a"; full_path := Some "/remote/sub/d.txt" |}
  = Some ("/remote" +:+ "/" +:+ "sub/d.txt").
Proof.
  refine (proj1 (remote_keys_locate_files interrupted_world scenario_sftp "/remote"
                   empty_store (fresh (dom (dicts empty_store))) "sub/d.txt"
                   {| checksum := "7a"; full_path := Some "/remote/sub/d.txt" |} _) _ _).
  - vm_compute. reflexivity.
  - vm_compute. reflexivity.
  - vm_compute. reflexivity.
Defined.

Ltac in_trace :=
  apply list_elem_of_In; vm_compute; repeat (first [left; reflexivity | right]).



(** In the scenario, without a key path, the password is used. *)
Lemma scenario_password_used :
  "server2" ∈ servers scenario_arguments ∧ "operator" = username scenario_arguments ∧
  if truthy (key_path scenario_arguments) then
    ∃ key, private_key_file scenario_world (default "" (key_path scenario_arguments))
           = inr key ∧ Password (Some "secret") = Pkey key
  else Password (Some "secret") = Password (password scenario_arguments).
Proof.
  apply (credentials_as_configured scenario_world scenario_arguments empty_store
           "server2" "operator" (Password (Some "secret"))).
  left. in_trace.
Defined.

(** In the scenario, the prompt counts the one superfluous file. *)
Lemma scenario_prompt_count :
  auto_delete scenario_arguments = true ∧ "server1" ∈ servers scenario_arguments ∧ 0 < 1 ∧
  1 = size (remote_keys scenario_world scenario_arguments "server1" ∖
            list_to_set (regular_files
                           (local_tree scenario_world (source_path scenario_arguments)))).
Proof.
  apply (prompt_counts_superfluous_files scenario_world scenario_arguments empty_store
           1 "server1").
  left. in_trace.
Defined.

(** An interrupt during a removal ends the run. *)
Lemma scenario_interrupt_ends_run :
  first_some local_open_error
             (local_tree interrupted_world (source_path scenario_arguments))
    = Some KeyboardInterrupt ∨
  is_Exception KeyboardInterrupt = false.
Proof.
  apply (run_ends_on_local_error_or_interrupt interrupted_world scenario_arguments
           empty_store KeyboardInterrupt).
  left. vm_compute. reflexivity.
Defined.

(** A file with contents "hi" locally and "ho" on the server. *)
Lemma scenario_modified_file :
  let source : gmap string file_record :=
    {[ "a.txt" := {| checksum := V1.local_digest scenario_world 4096
                                   (file_of [x68; x69]) "sha256";
                     full_path := None |} ]} in
  let dest : gmap string file_record :=
    {[ "a.txt" := {| checksum := V1.remote_digest scenario_world 4096
                                   (file_of [x68; x6f]) "sha256";
                     full_path := Some "/remote/a.txt" |} ]} in
  "a.txt" ∈ (V1.compare_files source dest).2 ↔
  hash_digest scenario_world "sha256" (Checksum.pending (file_of [x68; x69]))
  ≠ hash_digest scenario_world "sha256" (Checksum.pending (file_of [x68; x6f])).
Proof.
  cbv zeta.
  refine (proj1 (modified_iff_digests_differ scenario_world _ _ "a.txt"
                   (file_of [x68; x69]) (file_of [x68; x6f]) "/remote/a.txt" _ _)).
  - apply lookup_singleton_eq.
  - apply lookup_singleton_eq.
Defined.

(** In the scenario, the deleted set printed for the first server is that of its diff. *)
Lemma scenario_reported_diff :
  reports_diff
    (snapshot_of (local_records scenario_world (local_tree scenario_world "/local")))
    (remote_snapshot scenario_world scenario_arguments "server1")
    (EvPrint (MsgDeleted (Some {[ "c.txt" ]}))).
Proof.
  apply (reported_diff_is_of_the_target scenario_world scenario_arguments 0 _ "server1"
           (final (V1.get_local_files scenario_world "/local" empty_store))).
  - vm_compute. reflexivity.
  - left. in_trace.
  - exact I.
Defined.
